(** * Semiconductor production analysis: the script [analysis.py] in Rocq

    A shallow embedding of the pandas/NumPy pipeline of [analysis.py]:

    - a production table is a list of records, one per CSV line, every
      cell present: the four key columns are text, the two count columns
      are parsed as [int64];
    - an [int64] column holds integers that wrap around modulo [2^64];
    - a [float64] value is an IEEE 754 binary64 number, given by the
      executable specification [SpecFloat] of the standard library
      (precision 53, exponent bound 1024);
    - [groupby(key)[col].sum()] is a single pass over the rows that adds
      each value to the accumulator of its key, the result being indexed
      by the keys in ascending order (pandas' default [sort=True]);
    - the console, the chart windows and the output file are a trace of
      events; no effect fails and the parsed table has its six columns.

    Outside the model: a line with a missing key cell, which pandas leaves
    out of every group; and a key column that pandas reads as numbers,
    whose groups pandas orders numerically, where the model orders the
    keys as texts. *)

From Stdlib Require Import ZArith List String Ascii Lia Bool Sorted Permutation.
From Stdlib Require Import SpecFloat PrimFloat FloatOps.
Import ListNotations.
Open Scope Z_scope.

(** ** 64-bit integer columns *)

Module Int64.

Definition min_int : Z := -9223372036854775808.
Definition max_int : Z := 9223372036854775807.

(** Two's complement wrap-around of a mathematical integer. *)
Definition wrap (z : Z) : Z := (z + 2 ^ 63) mod 2 ^ 64 - 2 ^ 63.

(** The addition that the grouped [sum] performs on an [int64] column. *)
Definition add (a b : Z) : Z := wrap (a + b).

Definition in_range (z : Z) : Prop := min_int <= z <= max_int.

End Int64.

(** Sum of a list of mathematical integers. *)
Definition Zsum (l : list Z) : Z := fold_right Z.add 0 l.

(** Sum of the cells of an [int64] column, as the column's own arithmetic
    gives it. *)
Definition int64_sum (l : list Z) : Z := Int64.wrap (Zsum l).

(** ** Keys: strings ordered as Python orders [str] values

    [read_csv] leaves the [date], [wafer_size], [shift] and [machine_id]
    cells as text; pandas sorts the group keys with Python's comparison of
    [str], the lexicographic order of the code points, which on UTF-8
    bytes is [String.compare]. *)

Definition key_lt (a b : string) : Prop := String.compare a b = Lt.

Definition ascending (ks : list string) : Prop := StronglySorted key_lt ks.

(** ** Grouped sums *)

Section GroupBy.

Variable R : Type.
Variable key : R -> string.
Variable val : R -> Z.

(** The sorted index of group keys: [key_insert] places a key in an
    ascending list unless it is already there. *)
Fixpoint key_insert (k : string) (ks : list string) : list string :=
  match ks with
  | [] => [k]
  | k' :: rest =>
      match String.compare k k' with
      | Eq => ks
      | Lt => k :: ks
      | Gt => k' :: key_insert k rest
      end
  end.

Definition groupby_index (data : list R) : list string :=
  fold_left (fun ks r => key_insert (key r) ks) data [].

(** One step of the grouped sum: the value [v] of a row with key [k] is
    added to the accumulator of [k], created at 0 when [k] is new. *)
Fixpoint group_add (k : string) (v : Z) (acc : list (string * Z))
  : list (string * Z) :=
  match acc with
  | [] => [(k, Int64.add 0 v)]
  | (k', s) :: rest =>
      match String.compare k k' with
      | Eq => (k', Int64.add s v) :: rest
      | Lt => (k, Int64.add 0 v) :: acc
      | Gt => (k', s) :: group_add k v rest
      end
  end.

(** [data.groupby(key)[val].sum()]: a series indexed by the keys. *)
Definition groupby_sum (data : list R) : list (string * Z) :=
  fold_left (fun acc r => group_add (key r) (val r) acc) data [].

(** The accumulator of key [k] in a series, 0 when [k] has no entry. *)
Definition group_get (k : string) (acc : list (string * Z)) : Z :=
  match find (fun p => String.eqb (fst p) k) acc with
  | Some p => snd p
  | None => 0
  end.

(** The rows of one group, and the mathematical sum of their values. *)
Definition group_rows (k : string) (data : list R) : list R :=
  filter (fun r => String.eqb (key r) k) data.

Definition group_total (k : string) (data : list R) : Z :=
  Zsum (map val (group_rows k data)).

Definition column_total (data : list R) : Z := Zsum (map val data).

(** The [int64] sum of the values of one group. *)
Definition group_sum (k : string) (data : list R) : Z :=
  int64_sum (map val (group_rows k data)).

End GroupBy.

Arguments groupby_index {R} key data.
Arguments groupby_sum {R} key val data.
Arguments group_rows {R} key k data.
Arguments group_total {R} key val k data.
Arguments column_total {R} val data.
Arguments group_sum {R} key val k data.

(** ** float64 values *)

Module Float64.

Definition prec : Z := 53.
Definition emax : Z := 1024.

Definition t : Type := spec_float.

Definition nan : t := S754_nan.

(** Conversion of an integer, rounded to the nearest float64. *)
Definition of_int (z : Z) : t := binary_normalize prec emax z 0 false.

Definition add : t -> t -> t := SFadd prec emax.
Definition sub : t -> t -> t := SFsub prec emax.
Definition mul : t -> t -> t := SFmul prec emax.
Definition div : t -> t -> t := SFdiv prec emax.
Definition sqrt : t -> t := SFsqrt prec emax.
Definition ltb : t -> t -> bool := SFltb.

Definition is_nan (x : t) : bool :=
  match x with S754_nan => true | _ => false end.

Definition is_infinite (x : t) : bool :=
  match x with S754_infinity _ => true | _ => false end.

Definition is_finite (x : t) : bool :=
  match x with S754_zero _ | S754_finite _ _ _ => true | _ => false end.

(** The integer nearest to [n / d] for [0 < d], ties going to the even
    one. *)
Definition div_half_even (n d : Z) : Z :=
  let q := n / d in
  match Z.compare (2 * (n mod d)) d with
  | Lt => q
  | Eq => if Z.even q then q else q + 1
  | Gt => q + 1
  end.

(** C's [rint] in the default rounding mode. *)
Definition rint (x : t) : t :=
  match x with
  | S754_finite s m e =>
      if 0 <=? e then x
      else
        let n := div_half_even (Zpos m) (2 ^ (- e)) in
        if n =? 0 then S754_zero s
        else binary_normalize prec emax (cond_Zopp s n) 0 s
  | _ => x
  end.

(** NumPy's [round(decimals)] for [0 < decimals]: scale by the power of
    ten, [rint], scale back. *)
Definition round (x : t) (decimals : Z) : t :=
  let f := of_int (10 ^ decimals) in
  div (rint (mul x f)) f.

End Float64.

(** A float that is neither zero nor NaN and has sign [s]. *)
Definition nonzero_of_sign (s : bool) (x : Float64.t) : Prop :=
  match x with
  | S754_finite s' _ _ | S754_infinity s' => s' = s
  | _ => False
  end.

(** ** Python's [format(x, ".2f")] *)

Definition sign_text (s : bool) : string := if s then "-"%string else ""%string.

Definition digit (d : Z) : ascii := ascii_of_N (48 + Z.to_N d).

Definition is_digit (c : ascii) : Prop := exists d, 0 <= d <= 9 /\ c = digit d.

(** The decimal digits of a natural number, most significant first;
    [fuel] bounds the number of digits. *)
Fixpoint decimal_digits (fuel : nat) (n : Z) (acc : string) : string :=
  match fuel with
  | O => acc
  | S fuel' =>
      let acc' := String (digit (n mod 10)) acc in
      if n / 10 =? 0 then acc' else decimal_digits fuel' (n / 10) acc'
  end.

Definition decimal (n : Z) : string :=
  decimal_digits (S (Z.to_nat (Z.log2 n))) n ""%string.

(** The exact value [m * 2^e] in hundredths, rounded half to even, as
    Python's correctly rounded conversion does. *)
Definition hundredths (m : positive) (e : Z) : Z :=
  Float64.div_half_even (Zpos m * 100 * 2 ^ Z.max e 0) (2 ^ Z.max (- e) 0).

Definition format_2f (x : Float64.t) : string :=
  match x with
  | S754_nan => "nan"
  | S754_infinity s => sign_text s ++ "inf"
  | S754_zero s => sign_text s ++ "0.00"
  | S754_finite s m e =>
      let n := hundredths m e in
      sign_text s ++ decimal (n / 100) ++ "."
        ++ String (digit (n mod 100 / 10)) (String (digit (n mod 10)) "")
  end%string.

(** A text that ends in a point and two decimal digits. *)
Definition two_decimals (s : string) : Prop :=
  exists int_part d1 d2,
    s = (int_part ++ "." ++ String d1 (String d2 ""))%string
    /\ is_digit d1 /\ is_digit d2.

(** *** Reading a formatted percentage

    The number that a text of decimal digits denotes, and what it means
    for a text to show a number of hundredths and for an integer to be the
    nearest one to a quotient. *)

Fixpoint value_acc (v : Z) (s : string) : Z :=
  match s with
  | EmptyString => v
  | String c s' => value_acc (10 * v + (Z.of_N (N_of_ascii c) - 48)) s'
  end.

Definition decimal_value (s : string) : Z := value_acc 0 s.

Fixpoint all_digits (s : string) : Prop :=
  match s with
  | EmptyString => True
  | String c s' => is_digit c /\ all_digits s'
  end.

(** [n] is the integer nearest to [num / den], the even one of the two
    when [num / den] lies half-way. *)
Definition nearest_even (n num den : Z) : Prop :=
  2 * Z.abs (num - n * den) <= den
  /\ (2 * Z.abs (num - n * den) = den -> Z.even n = true).

(** [n] is the value [m * 2^e] of a float64, in hundredths, rounded half
    to even. *)
Definition rounds_to_hundredths (m : positive) (e : Z) (n : Z) : Prop :=
  nearest_even n (Zpos m * 100 * 2 ^ Z.max e 0) (2 ^ Z.max (- e) 0).

(** The text [t] is an integer part, a point and two decimals, and reads
    as [n] hundredths. *)
Definition denotes_hundredths (t : string) (n : Z) : Prop :=
  exists int_part d1 d2,
    t = (int_part ++ "." ++ String d1 (String d2 ""))%string
    /\ int_part <> ""%string
    /\ all_digits int_part /\ is_digit d1 /\ is_digit d2
    /\ 100 * decimal_value int_part
       + decimal_value (String d1 (String d2 "")) = n.

(** ** The tables *)

(** One line of [semiconductor_production.csv]. *)
Record production_record : Type := {
  date : string;
  produced_chips : Z;
  defective_chips : Z;
  wafer_size : string;
  shift : string;
  machine_id : string
}.

(** One line of the frame that [process_data] returns. *)
Module Daily.
Record row : Type := {
  date : string;
  produced_chips : Z;
  defective_chips : Z;
  defective_percentage : Float64.t
}.
End Daily.

(** A series of float64 values indexed by key. *)
Definition series : Type := list (string * Float64.t).

(** ** [process_data] *)

(** [defective / produced * 100] on two [int64] cells: true division
    converts both to float64. *)
Definition ratio_percent (defective produced : Z) : Float64.t :=
  Float64.mul
    (Float64.div (Float64.of_int defective) (Float64.of_int produced))
    (Float64.of_int 100).

Definition defective_percentage_of (defective produced : Z) : Float64.t :=
  Float64.round (ratio_percent defective produced) 2.

(** [agg] sums each of the two columns under the same grouping and lays
    the results side by side; [reset_index] turns the key into the [date]
    column; the percentage column is then computed line by line. *)
Definition process_data (data : list production_record) : list Daily.row :=
  let produced := groupby_sum date produced_chips data in
  let defective := groupby_sum date defective_chips data in
  map (fun pq : (string * Z) * (string * Z) =>
         let p := snd (fst pq) in
         let q := snd (snd pq) in
         {| Daily.date := fst (fst pq);
            Daily.produced_chips := p;
            Daily.defective_chips := q;
            Daily.defective_percentage := defective_percentage_of q p |})
      (combine produced defective).

(** ** Effects: what the script prints, shows and writes *)

Inductive event : Type :=
| Print (text : string)
| PrintSeries (label : string) (s : series)
| ShowLineChart (grouped_data : list Daily.row)
| ShowBarChart (title : string) (s : series)
| ToCsv (file_path : string) (grouped_data : list Daily.row).

Definition newline : string := String (ascii_of_N 10) "".

(** ** [analyze_defective_percentage] *)

Definition threshold : Float64.t := Float64.of_int 5.

Definition exceeds_threshold (row : Daily.row) : bool :=
  Float64.ltb threshold (Daily.defective_percentage row).

Definition notice (row : Daily.row) : string :=
  ("Внимание: Висок процент дефектни чипове на дата "
     ++ Daily.date row ++ ": "
     ++ format_2f (Daily.defective_percentage row) ++ "%")%string.

Fixpoint analyze_defective_percentage (grouped_data : list Daily.row)
  : list event :=
  match grouped_data with
  | [] => []
  | row :: rest =>
      if exceeds_threshold row
      then Print (notice row) :: analyze_defective_percentage rest
      else analyze_defective_percentage rest
  end.

(** ** [additional_analysis] *)

Definition lookup (k : string) (s : list (string * Z)) : option Z :=
  option_map snd (find (fun p => String.eqb (fst p) k) s).

(** [left / right] on two [int64] series: pandas aligns the two on the
    union of their indexes, a key that one side lacks giving NaN, and
    divides cell by cell in float64. *)
Definition series_div (left right : list (string * Z)) : series :=
  let index :=
    fold_left (fun ks k => key_insert k ks) (map fst right) (map fst left) in
  map (fun k =>
         (k, match lookup k left, lookup k right with
             | Some a, Some b => Float64.div (Float64.of_int a) (Float64.of_int b)
             | _, _ => Float64.nan
             end))
      index.

Definition series_mul (s : series) (c : Z) : series :=
  map (fun kx => (fst kx, Float64.mul (snd kx) (Float64.of_int c))) s.

Definition series_round (s : series) (decimals : Z) : series :=
  map (fun kx => (fst kx, Float64.round (snd kx) decimals)) s.

(** [(data.groupby(key)["defective_chips"].sum()
      / data.groupby(key)["produced_chips"].sum() * 100).round(2)] *)
Definition average_defect_rate_by (key : production_record -> string)
    (data : list production_record) : series :=
  series_round
    (series_mul
       (series_div (groupby_sum key defective_chips data)
                   (groupby_sum key produced_chips data))
       100)
    2.

Definition average_defect_rate_by_wafer_size := average_defect_rate_by wafer_size.
Definition average_defect_rate_by_shift := average_defect_rate_by shift.
Definition average_defect_rate_by_machine := average_defect_rate_by machine_id.

Definition additional_analysis (data : list production_record) : list event :=
  [ PrintSeries
      (newline ++ " Среден процент дефектни чипове по размер на пластината: ")
      (average_defect_rate_by_wafer_size data);
    PrintSeries
      (newline ++ " Среден процент дефектни чипове по смяна: ")
      (average_defect_rate_by_shift data);
    PrintSeries
      (newline ++ " Среден процент дефектни чипове по машина: ")
      (average_defect_rate_by_machine data);
    ShowBarChart
      "Среден процент (%) дефектни чипове по размер на пластината"
      (average_defect_rate_by_wafer_size data);
    ShowBarChart
      "Среден процент (%) дефектни чипове по смяна"
      (average_defect_rate_by_shift data);
    ShowBarChart
      "Среден процент (%) дефектни чипове по машина"
      (average_defect_rate_by_machine data) ]%string.

(** ** [visualize_data] and [save_processed_data] *)

Definition visualize_data (grouped_data : list Daily.row) : list event :=
  [ShowLineChart grouped_data].

Definition save_processed_data (grouped_data : list Daily.row)
    (file_path : string) : list event :=
  [ToCsv file_path grouped_data].

(** ** [calculate_statistics] and the script

    NumPy adds the cells of a float64 array in blocks (pairwise
    summation); the order of the additions is not fixed by the script, so
    the development is parametric in the reduction [add_reduce]. *)

Section Script.

Variable add_reduce : list Float64.t -> Float64.t.

(** [Series.mean()] on an [int64] column (pandas' [nanmean]). *)
Definition Series_mean (values : list Z) : Float64.t :=
  let count := Z.of_nat (List.length values) in
  let the_sum := add_reduce (map Float64.of_int values) in
  if 0 <? count then Float64.div the_sum (Float64.of_int count)
  else Float64.nan.

(** [Series.var(ddof)] on an [int64] column (pandas' [nanvar]). *)
Definition Series_var (values : list Z) (ddof : Z) : Float64.t :=
  let count := Z.of_nat (List.length values) in
  if count <=? ddof then Float64.nan
  else
    let cells := map Float64.of_int values in
    let avg := Float64.div (add_reduce cells) (Float64.of_int count) in
    let sqr :=
      map (fun x => Float64.mul (Float64.sub avg x) (Float64.sub avg x))
          cells in
    Float64.div (add_reduce sqr) (Float64.of_int (count - ddof)).

Definition Series_std (values : list Z) (ddof : Z) : Float64.t :=
  Float64.sqrt (Series_var values ddof).

(** [np.mean] and [np.std] hand a Series over to its own methods;
    [np.std] passes its default [ddof=0] along. *)
Definition np_mean (values : list Z) : Float64.t := Series_mean values.

Definition np_std (values : list Z) : Float64.t := Series_std values 0.

Definition calculate_statistics (grouped_data : list Daily.row)
  : Float64.t * Float64.t :=
  let mean_produced_chips :=
    np_mean (map Daily.produced_chips grouped_data) in
  let std_produced_chips :=
    np_std (map Daily.produced_chips grouped_data) in
  (mean_produced_chips, std_produced_chips).

(** The definitions of the specification, in its own words: the sum
    divided by the number [N] of values, and the square root of the sum
    of squared deviations from the mean divided by [N]. *)
Definition arithmetic_mean (values : list Z) : Float64.t :=
  Float64.div (add_reduce (map Float64.of_int values))
              (Float64.of_int (Z.of_nat (List.length values))).

Definition squared_deviations (values : list Z) : list Float64.t :=
  map (fun v =>
         let d := Float64.sub (arithmetic_mean values) (Float64.of_int v) in
         Float64.mul d d)
      values.

Definition population_std (values : list Z) : Float64.t :=
  Float64.sqrt
    (Float64.div (add_reduce (squared_deviations values))
                 (Float64.of_int (Z.of_nat (List.length values)))).

(** What [pd.read_csv] does with the path: it parses the file or raises. *)
Inductive read_csv_outcome : Type :=
| Parsed (data : list production_record)
| FileNotFoundError
| EmptyDataError
| ParserError
| OtherError.

(** How a call ends: with a value, or with an exception nobody caught. *)
Inductive completion (A : Type) : Type :=
| Returned (a : A)
| Raised.
Arguments Returned {A} a.
Arguments Raised {A}.

Definition read_data (file_path : string) (read_csv : read_csv_outcome)
  : list event * completion (option (list production_record)) :=
  match read_csv with
  | Parsed data => ([], Returned (Some data))
  | FileNotFoundError =>
      ([Print ("Error: File " ++ file_path ++ " not found.")%string],
       Returned None)
  | EmptyDataError => ([Print "Error: File is empty."], Returned None)
  | ParserError =>
      ([Print "Error: File could not be parsed."], Returned None)
  | OtherError => ([], Raised)
  end.

(** The state of a run: the trace of effects and the module variables
    that the run has bound. *)
Record run : Type := {
  trace : list event;
  grouped_data : option (list Daily.row);
  statistics : option (Float64.t * Float64.t)
}.

(** The body of [if __name__ == "__main__":]. *)
Definition main (read_csv : read_csv_outcome) : run :=
  let (out, data) := read_data "semiconductor_production.csv" read_csv in
  match data with
  | Returned (Some data) =>
      let grouped := process_data data in
      let stats := calculate_statistics grouped in
      {| trace :=
           out
             ++ visualize_data grouped
             ++ save_processed_data grouped
                  "processed_semiconductor_production.csv"
             ++ [ Print (newline ++ " Средно произведени чипове: "
                           ++ format_2f (fst stats));
                  Print ("Стандартно отклонение на произведените чипове: "
                           ++ format_2f (snd stats)) ]%string
             ++ analyze_defective_percentage grouped
             ++ additional_analysis data;
         grouped_data := Some grouped;
         statistics := Some stats |}
  | Returned None | Raised =>
      {| trace := out; grouped_data := None; statistics := None |}
  end.

(** The three failures that [read_data] reports. *)
Definition loader_failure (read_csv : read_csv_outcome) : bool :=
  match read_csv with
  | FileNotFoundError | EmptyDataError | ParserError => true
  | _ => false
  end.

(** An effect of the stages after the loader: a chart, the output file,
    or a printed result. *)
Definition downstream (e : event) : bool :=
  match e with
  | Print text => negb (prefix "Error: " text)
  | _ => true
  end.

End Script.

Arguments Returned {A} a.
Arguments Raised {A}.

(** The addition loop of NumPy for fewer than eight cells: one
    accumulator, the cells from left to right. *)
Definition sequential_sum (cells : list Float64.t) : Float64.t :=
  fold_left Float64.add cells (S754_zero false).

(** The float64 value that a decimal literal such as [5.33] denotes. *)
Definition float_literal (x : PrimFloat.float) : Float64.t := Prim2SF x.

(** ** Valid tables and the scenario of the specification *)

(** A valid table holds counts, that is non-negative integers, and its
    column totals fit in an [int64]. *)
Definition valid_table (data : list production_record) : Prop :=
  Forall (fun r => 0 <= produced_chips r /\ 0 <= defective_chips r) data
  /\ column_total produced_chips data <= Int64.max_int
  /\ column_total defective_chips data <= Int64.max_int.

Definition record (d : string) (produced defective : Z) (w s m : string)
  : production_record :=
  {| date := d; produced_chips := produced; defective_chips := defective;
     wafer_size := w; shift := s; machine_id := m |}.

Definition scenario : list production_record :=
  [ record "2024-01-01" 100 6 "300" "A" "M1";
    record "2024-01-01" 50 2 "200" "B" "M2";
    record "2024-01-02" 80 1 "300" "A" "M1" ].

(** Two further tables: a date without production, and two idle shifts
    one of which still reports defective chips. *)
Definition idle_day : list production_record :=
  [record "2024-01-01" 0 0 "300" "A" "M1"].

Definition idle_shifts : list production_record :=
  [ record "2024-01-01" 0 0 "300" "A" "M1";
    record "2024-01-01" 0 3 "200" "B" "M2" ].

Definition idle_row : Daily.row :=
  {| Daily.date := "2024-01-01"; Daily.produced_chips := 0;
     Daily.defective_chips := 0; Daily.defective_percentage := S754_nan |}.

Definition flagged_row : Daily.row :=
  {| Daily.date := "2024-01-01"; Daily.produced_chips := 150;
     Daily.defective_chips := 8;
     Daily.defective_percentage := Float64.round (ratio_percent 8 150) 2 |}.

(** ** The aggregate, date by date *)

(** The line that the rows of date [d] contribute to the aggregate: their
    two [int64] sums and the rounded ratio of these. *)
Definition daily_row_of (data : list production_record) (d : string)
  : Daily.row :=
  {| Daily.date := d;
     Daily.produced_chips := group_sum date produced_chips d data;
     Daily.defective_chips := group_sum date defective_chips d data;
     Daily.defective_percentage :=
       defective_percentage_of (group_sum date defective_chips d data)
                               (group_sum date produced_chips d data) |}.

(** An event that writes the output file, and one that opens a chart. *)
Definition is_to_csv (e : event) : bool :=
  match e with ToCsv _ _ => true | _ => false end.

Definition is_chart (e : event) : bool :=
  match e with ShowLineChart _ | ShowBarChart _ _ => true | _ => false end.

Definition is_print (e : event) : bool :=
  match e with Print _ | PrintSeries _ _ => true | _ => false end.

(** The message of a loader failure for a given path. *)
Definition failure_report (file_path : string) (read_csv : read_csv_outcome)
  : list event :=
  fst (read_data file_path read_csv).

(** Tables and rows for the edge cases: a date whose production overflows
    an [int64], and a date that reports defects without production. *)
Definition overflow_day : list production_record :=
  [ record "2024-01-01" (2 ^ 62) 0 "300" "A" "M1";
    record "2024-01-01" (2 ^ 62) 0 "300" "B" "M1" ].

Definition faulty_day : list production_record :=
  [record "2024-01-01" 0 6 "300" "A" "M1"].

Definition faulty_row : Daily.row :=
  {| Daily.date := "2024-01-01"; Daily.produced_chips := 0;
     Daily.defective_chips := 6;
     Daily.defective_percentage := S754_infinity false |}.

(** * Properties *)

(** ** Wrap-around *)

Lemma wrap_in_range z : Int64.in_range z -> Int64.wrap z = z.
Proof.
  unfold Int64.in_range, Int64.wrap, Int64.min_int, Int64.max_int.
  intros Hz. rewrite Z.mod_small; lia.
Qed.

Lemma wrap_add_wrap a b : Int64.wrap (Int64.wrap a + b) = Int64.wrap (a + b).
Proof.
  unfold Int64.wrap.
  replace ((a + 2 ^ 63) mod 2 ^ 64 - 2 ^ 63 + b + 2 ^ 63)
    with ((a + 2 ^ 63) mod 2 ^ 64 + b) by lia.
  replace (a + b + 2 ^ 63) with (a + 2 ^ 63 + b) by lia.
  now rewrite Zplus_mod_idemp_l.
Qed.

Lemma wrap_zero : Int64.wrap 0 = 0.
Proof. reflexivity. Qed.

Lemma add_exact a b :
  Int64.in_range (a + b) -> Int64.add a b = a + b.
Proof. apply wrap_in_range. Qed.

(** ** The order on keys *)

Lemma ascii_compare_refl c : Ascii.compare c c = Eq.
Proof. unfold Ascii.compare. apply N.compare_refl. Qed.

Lemma ascii_compare_lt_trans a b c :
  Ascii.compare a b = Lt -> Ascii.compare b c = Lt -> Ascii.compare a c = Lt.
Proof.
  unfold Ascii.compare. rewrite !N.compare_lt_iff. apply N.lt_trans.
Qed.

Lemma compare_refl s : String.compare s s = Eq.
Proof.
  induction s as [|c s IH]; simpl; [reflexivity|].
  now rewrite ascii_compare_refl.
Qed.

Lemma compare_eq s1 s2 : String.compare s1 s2 = Eq <-> s1 = s2.
Proof.
  split; [apply String.compare_eq_iff|intros ->; apply compare_refl].
Qed.

Lemma key_lt_irrefl k : ~ key_lt k k.
Proof. unfold key_lt. now rewrite compare_refl. Qed.

Lemma key_lt_trans a b c : key_lt a b -> key_lt b c -> key_lt a c.
Proof.
  unfold key_lt. revert b c.
  induction a as [|x a IH]; intros [|y b] [|z c]; simpl; try discriminate;
    try reflexivity.
  destruct (Ascii.compare x y) eqn:Hxy; try discriminate;
    destruct (Ascii.compare y z) eqn:Hyz; try discriminate; intros Hab Hbc.
  - apply Ascii.compare_eq_iff in Hxy, Hyz. subst.
    rewrite ascii_compare_refl. eauto.
  - apply Ascii.compare_eq_iff in Hxy. subst. now rewrite Hyz.
  - apply Ascii.compare_eq_iff in Hyz. subst. now rewrite Hxy.
  - now rewrite (ascii_compare_lt_trans _ _ _ Hxy Hyz).
Qed.

Lemma compare_gt_lt a b : String.compare a b = Gt -> key_lt b a.
Proof.
  unfold key_lt. intros H. rewrite String.compare_antisym, H. reflexivity.
Qed.

Lemma key_lt_neq a b : key_lt a b -> a <> b.
Proof. intros H ->. exact (key_lt_irrefl _ H). Qed.

Lemma ascending_NoDup ks : ascending ks -> NoDup ks.
Proof.
  induction 1 as [|k ks Hs IH Hall]; constructor; [|exact IH].
  intros Hin. rewrite Forall_forall in Hall.
  exact (key_lt_irrefl _ (Hall _ Hin)).
Qed.

Lemma ascending_tail k ks : ascending (k :: ks) -> ascending ks.
Proof. intros H. now inversion H. Qed.

Lemma ascending_head k ks x : ascending (k :: ks) -> In x ks -> key_lt k x.
Proof.
  intros H Hin. inversion H as [|? ? _ Hall]; subst.
  rewrite Forall_forall in Hall. auto.
Qed.

(** ** The index of a grouping *)

Lemma key_insert_In k ks x : In x (key_insert k ks) <-> x = k \/ In x ks.
Proof.
  induction ks as [|k' ks IH]; simpl.
  - intuition.
  - destruct (String.compare k k') eqn:Hc; simpl.
    + apply compare_eq in Hc. subst. intuition auto.
    + intuition auto.
    + rewrite IH. intuition auto.
Qed.

Lemma key_insert_ascending k ks : ascending ks -> ascending (key_insert k ks).
Proof.
  unfold ascending.
  induction ks as [|k' ks IH]; simpl; intros Hs.
  - repeat constructor.
  - destruct (String.compare k k') eqn:Hc.
    + exact Hs.
    + constructor; [exact Hs|].
      constructor; [exact Hc|].
      rewrite Forall_forall. intros x Hx.
      exact (key_lt_trans _ _ _ Hc (ascending_head _ _ _ Hs Hx)).
    + constructor; [apply IH; exact (ascending_tail _ _ Hs)|].
      rewrite Forall_forall. intros x Hx.
      apply key_insert_In in Hx. destruct Hx as [->|Hx].
      * now apply compare_gt_lt.
      * exact (ascending_head _ _ _ Hs Hx).
Qed.

Lemma key_insert_present k ks :
  ascending ks -> In k ks -> key_insert k ks = ks.
Proof.
  induction ks as [|k' ks IH]; simpl; intros Hs Hin; [contradiction|].
  destruct (String.compare k k') eqn:Hc.
  - reflexivity.
  - exfalso. destruct Hin as [->|Hin].
    + exact (key_lt_irrefl _ Hc).
    + exact (key_lt_irrefl _
               (key_lt_trans _ _ _ Hc (ascending_head _ _ _ Hs Hin))).
  - f_equal. apply IH; [exact (ascending_tail _ _ Hs)|].
    destruct Hin as [->|Hin]; [|exact Hin].
    rewrite compare_refl in Hc. discriminate.
Qed.

Lemma group_add_keys k v acc :
  map fst (group_add k v acc) = key_insert k (map fst acc).
Proof.
  induction acc as [|[k' s] acc IH]; simpl; [reflexivity|].
  destruct (String.compare k k'); simpl; [reflexivity|reflexivity|].
  now rewrite IH.
Qed.

Section GroupByFacts.

Variable R : Type.
Variable key : R -> string.

Lemma groupby_index_snoc data r :
  groupby_index key (data ++ [r]) = key_insert (key r) (groupby_index key data).
Proof. unfold groupby_index. now rewrite fold_left_app. Qed.

Lemma groupby_sum_snoc val data r :
  groupby_sum key val (data ++ [r])
  = group_add (key r) (val r) (groupby_sum key val data).
Proof. unfold groupby_sum. now rewrite fold_left_app. Qed.

Lemma groupby_sum_keys val data :
  map fst (groupby_sum key val data) = groupby_index key data.
Proof.
  induction data as [|r data IH] using rev_ind; [reflexivity|].
  now rewrite groupby_sum_snoc, groupby_index_snoc, group_add_keys, IH.
Qed.

Lemma groupby_index_ascending data : ascending (groupby_index key data).
Proof.
  induction data as [|r data IH] using rev_ind.
  - constructor.
  - rewrite groupby_index_snoc. now apply key_insert_ascending.
Qed.

Lemma groupby_index_In data k :
  In k (groupby_index key data) <-> In k (map key data).
Proof.
  induction data as [|r data IH] using rev_ind.
  - simpl. tauto.
  - rewrite groupby_index_snoc, key_insert_In, IH, map_app, in_app_iff.
    simpl. intuition.
Qed.

End GroupByFacts.

(** ** The sums of a grouping *)

Lemma group_get_cons k k0 s0 acc :
  group_get k ((k0, s0) :: acc)
  = if String.eqb k0 k then s0 else group_get k acc.
Proof. unfold group_get. simpl. now destruct (String.eqb k0 k). Qed.

Lemma group_get_absent k acc : ~ In k (map fst acc) -> group_get k acc = 0.
Proof.
  induction acc as [|[k0 s0] acc IH]; intros Hk; [reflexivity|].
  rewrite group_get_cons. simpl in Hk.
  destruct (String.eqb_spec k0 k) as [->|Hne]; [tauto|].
  apply IH. tauto.
Qed.

Lemma group_get_add k v acc k' :
  ascending (map fst acc) ->
  group_get k' (group_add k v acc)
  = if String.eqb k' k then Int64.add (group_get k acc) v else group_get k' acc.
Proof.
  induction acc as [|[k0 s0] acc IH]; simpl; intros Hs.
  - rewrite group_get_cons, String.eqb_sym.
    now destruct (String.eqb k' k).
  - destruct (String.compare k k0) eqn:Hc.
    + apply compare_eq in Hc. subst k0.
      rewrite !group_get_cons, String.eqb_refl, (String.eqb_sym k k').
      now destruct (String.eqb k' k).
    + rewrite !group_get_cons, (String.eqb_sym k k').
      destruct (String.eqb_spec k' k) as [Heq|Hne]; [|reflexivity].
      destruct (String.eqb_spec k0 k) as [Heq0|_];
        [exfalso; subst k0; exact (key_lt_irrefl _ Hc)|].
      rewrite group_get_absent; [reflexivity|].
      intros Hin.
      exact (key_lt_irrefl _
               (key_lt_trans _ _ _ Hc (ascending_head _ _ _ Hs Hin))).
    + rewrite !group_get_cons, IH by exact (ascending_tail _ _ Hs).
      destruct (String.eqb_spec k0 k) as [Heq0|Hne0].
      { subst k0. rewrite compare_refl in Hc. discriminate. }
      destruct (String.eqb_spec k0 k') as [Heq1|Hne1]; [|reflexivity].
      destruct (String.eqb_spec k' k) as [Heq|_]; [congruence|reflexivity].
Qed.

Lemma In_group_get acc k s :
  ascending (map fst acc) ->
  In (k, s) acc <-> In k (map fst acc) /\ group_get k acc = s.
Proof.
  induction acc as [|[k0 s0] acc IH]; simpl; intros Hs; [tauto|].
  rewrite group_get_cons, (IH (ascending_tail _ _ Hs)).
  destruct (String.eqb_spec k0 k) as [->|Hne].
  - split.
    + intros [Heq|[Hin _]]; [inversion Heq; auto|].
      exfalso. exact (key_lt_irrefl _ (ascending_head _ _ _ Hs Hin)).
    + intros [_ ->]. now left.
  - split.
    + intros [Heq|[Hin Hg]]; [inversion Heq; contradiction|auto].
    + intros [[Heq|Hin] Hg]; [contradiction|auto].
Qed.

Lemma wrap_congr a b c :
  Int64.wrap a = Int64.wrap b -> Int64.wrap (c + a) = Int64.wrap (c + b).
Proof.
  intros H.
  rewrite (Z.add_comm c a), (Z.add_comm c b),
    <- (wrap_add_wrap a c), <- (wrap_add_wrap b c).
  now rewrite H.
Qed.

Lemma wrap_wrap a : Int64.wrap (Int64.wrap a) = Int64.wrap a.
Proof. generalize (wrap_add_wrap a 0). now rewrite !Z.add_0_r. Qed.

Lemma Zsum_cons x l : Zsum (x :: l) = x + Zsum l.
Proof. reflexivity. Qed.

Lemma group_add_total_wrap k v acc :
  Int64.wrap (Zsum (map snd (group_add k v acc)))
  = Int64.wrap (Zsum (map snd acc) + v).
Proof.
  induction acc as [|[k0 s0] acc IH]; cbn [group_add].
  - cbn [map snd]. rewrite Zsum_cons. cbn [map Zsum fold_right].
    unfold Int64.add. rewrite Z.add_0_r, !Z.add_0_l. apply wrap_wrap.
  - destruct (String.compare k k0); cbn [map snd fst]; rewrite !Zsum_cons.
    + unfold Int64.add. rewrite wrap_add_wrap. f_equal. lia.
    + unfold Int64.add. rewrite wrap_add_wrap, Z.add_0_l. f_equal. lia.
    + rewrite <- Z.add_assoc. now apply wrap_congr.
Qed.

Lemma group_add_total_exact k v acc :
  Forall (fun s => 0 <= s) (map snd acc) ->
  0 <= v ->
  Zsum (map snd acc) + v <= Int64.max_int ->
  Zsum (map snd (group_add k v acc)) = Zsum (map snd acc) + v
  /\ Forall (fun s => 0 <= s) (map snd (group_add k v acc)).
Proof.
  assert (Hmin : Int64.min_int <= 0) by (unfold Int64.min_int; lia).
  induction acc as [|[k0 s0] acc IH]; simpl; intros Hpos Hv Hmax.
  - rewrite add_exact by (unfold Int64.in_range; lia).
    split; [lia|]. constructor; [lia|constructor].
  - inversion Hpos as [|? ? Hs0 Hrest]; subst.
    assert (Hsum : 0 <= Zsum (map snd acc)).
    { clear -Hrest. induction Hrest; simpl; [lia|]. unfold Zsum in *. lia. }
    destruct (String.compare k k0); simpl.
    + rewrite add_exact by (unfold Int64.in_range; lia).
      split; [lia|]. constructor; [lia|exact Hrest].
    + rewrite add_exact by (unfold Int64.in_range; lia).
      split; [lia|]. constructor; [lia|exact Hpos].
    + destruct (IH Hrest Hv) as [IH1 IH2]; [lia|].
      rewrite IH1. split; [lia|]. constructor; assumption.
Qed.

Section GroupSumFacts.

Variable R : Type.
Variable key : R -> string.
Variable val : R -> Z.

Lemma groupby_sum_ascending data :
  ascending (map fst (groupby_sum key val data)).
Proof. rewrite groupby_sum_keys. apply groupby_index_ascending. Qed.

Lemma group_total_snoc k data r :
  group_total key val k (data ++ [r])
  = group_total key val k data
    + (if String.eqb (key r) k then val r else 0).
Proof.
  unfold group_total, group_rows.
  rewrite filter_app, map_app. simpl.
  assert (Happ : forall l1 l2, Zsum (l1 ++ l2) = Zsum l1 + Zsum l2).
  { induction l1; intros; simpl in *; [reflexivity|]. rewrite IHl1. lia. }
  rewrite Happ. destruct (String.eqb (key r) k); simpl; lia.
Qed.

Lemma column_total_snoc data r :
  column_total val (data ++ [r]) = column_total val data + val r.
Proof.
  unfold column_total. rewrite map_app. simpl.
  induction (map val data) as [|x l IH]; simpl in *; lia.
Qed.

(** The accumulator of a key is the wrapped sum of the key's rows. *)
Lemma groupby_sum_get data k :
  group_get k (groupby_sum key val data)
  = Int64.wrap (group_total key val k data).
Proof.
  induction data as [|r data IH] using rev_ind; [reflexivity|].
  rewrite groupby_sum_snoc, group_get_add by apply groupby_sum_ascending.
  rewrite group_total_snoc, (String.eqb_sym k (key r)).
  destruct (String.eqb_spec (key r) k) as [Hk|Hk].
  - subst k. unfold Int64.add. rewrite IH. apply wrap_add_wrap.
  - rewrite Z.add_0_r. exact IH.
Qed.

Lemma groupby_sum_In data k s :
  In (k, s) (groupby_sum key val data)
  <-> In k (map key data) /\ s = Int64.wrap (group_total key val k data).
Proof.
  rewrite In_group_get by apply groupby_sum_ascending.
  rewrite groupby_sum_keys, groupby_index_In, groupby_sum_get.
  intuition auto.
Qed.

(** The grouped sums add up to the column total, modulo [2^64]. *)
Lemma groupby_sum_total_wrap data :
  Int64.wrap (Zsum (map snd (groupby_sum key val data)))
  = Int64.wrap (column_total val data).
Proof.
  induction data as [|r data IH] using rev_ind; [reflexivity|].
  rewrite groupby_sum_snoc, group_add_total_wrap, column_total_snoc.
  rewrite <- wrap_add_wrap, IH. apply wrap_add_wrap.
Qed.

Lemma group_sum_total k data :
  group_sum key val k data = Int64.wrap (group_total key val k data).
Proof. reflexivity. Qed.

Lemma group_total_bounds k data :
  Forall (fun r => 0 <= val r) data ->
  0 <= group_total key val k data <= column_total val data.
Proof.
  unfold group_total, group_rows, column_total.
  induction 1 as [|r data Hr Hdata IH]; simpl; [lia|].
  destruct (String.eqb (key r) k); simpl; unfold Zsum in *; lia.
Qed.

(** Without overflow the grouped sums add up to the column total. *)
Lemma groupby_sum_total_exact data :
  Forall (fun r => 0 <= val r) data ->
  column_total val data <= Int64.max_int ->
  Zsum (map snd (groupby_sum key val data)) = column_total val data
  /\ Forall (fun s => 0 <= s) (map snd (groupby_sum key val data)).
Proof.
  induction data as [|r data IH] using rev_ind; intros Hpos Hmax.
  - split; [reflexivity|constructor].
  - apply Forall_app in Hpos. destruct Hpos as [Hpos Hr].
    inversion Hr as [|? ? Hv _]; subst.
    rewrite column_total_snoc in *.
    destruct (group_total_bounds EmptyString data Hpos) as [_ Htot0].
    assert (H0 : 0 <= column_total val data).
    { pose proof (group_total_bounds EmptyString data Hpos). lia. }
    destruct IH as [IH1 IH2]; [exact Hpos|lia|].
    rewrite groupby_sum_snoc.
    destruct (group_add_total_exact (key r) (val r) _ IH2 Hv) as [E1 E2];
      [lia|].
    rewrite E1, IH1. split; [reflexivity|exact E2].
Qed.

End GroupSumFacts.

(** ** The Daily Aggregate *)

Lemma combine_same_index (l1 l2 : list (string * Z)) :
  map fst l1 = map fst l2 ->
  map (fun pq => fst (fst pq)) (combine l1 l2) = map fst l1
  /\ map (fun pq => snd (fst pq)) (combine l1 l2) = map snd l1
  /\ map (fun pq => snd (snd pq)) (combine l1 l2) = map snd l2
  /\ forall a b, In (a, b) (combine l1 l2) ->
                 fst a = fst b /\ In a l1 /\ In b l2.
Proof.
  revert l2.
  induction l1 as [|x l1 IH]; intros [|y l2] Hk; simpl in *; try discriminate.
  - repeat split; contradiction.
  - injection Hk as Hxy Hk.
    destruct (IH l2 Hk) as (E1 & E2 & E3 & Hin).
    rewrite E1, E2, E3. repeat split; try reflexivity;
      destruct H as [Heq|H]; try (injection Heq as <- <-); auto;
      destruct (Hin _ _ H) as (? & ? & ?); auto.
Qed.

Lemma process_data_sides data :
  map fst (groupby_sum date produced_chips data)
  = map fst (groupby_sum date defective_chips data).
Proof. now rewrite !groupby_sum_keys. Qed.

Lemma process_data_dates data :
  map Daily.date (process_data data) = groupby_index date data.
Proof.
  unfold process_data. rewrite map_map. cbn [Daily.date].
  destruct (combine_same_index _ _ (process_data_sides data)) as (E & _).
  now rewrite E, groupby_sum_keys.
Qed.

Lemma process_data_produced data :
  map Daily.produced_chips (process_data data)
  = map snd (groupby_sum date produced_chips data).
Proof.
  unfold process_data. rewrite map_map. cbn [Daily.produced_chips].
  now destruct (combine_same_index _ _ (process_data_sides data))
    as (_ & E & _).
Qed.

Lemma process_data_defective data :
  map Daily.defective_chips (process_data data)
  = map snd (groupby_sum date defective_chips data).
Proof.
  unfold process_data. rewrite map_map. cbn [Daily.defective_chips].
  now destruct (combine_same_index _ _ (process_data_sides data))
    as (_ & _ & E & _).
Qed.

(** Every line of the aggregate carries the [int64] sums of its date and
    the rounded ratio of the two. *)
Lemma process_data_row data row :
  In row (process_data data) ->
  In (Daily.date row) (map date data)
  /\ Daily.produced_chips row
     = group_sum date produced_chips (Daily.date row) data
  /\ Daily.defective_chips row
     = group_sum date defective_chips (Daily.date row) data
  /\ Daily.defective_percentage row
     = defective_percentage_of (Daily.defective_chips row)
                               (Daily.produced_chips row).
Proof.
  unfold process_data. rewrite in_map_iff.
  intros ([[k p] [k' q]] & <- & Hin). cbn.
  destruct (combine_same_index _ _ (process_data_sides data))
    as (_ & _ & _ & Hsame).
  destruct (Hsame _ _ Hin) as (Hk & Hp & Hq). cbn in Hk. subst k'.
  apply groupby_sum_In in Hp. apply groupby_sum_In in Hq.
  destruct Hp as [Hd ->]. destruct Hq as [_ ->].
  repeat split; auto.
Qed.

Lemma valid_table_columns data :
  valid_table data ->
  Forall (fun r => 0 <= produced_chips r) data
  /\ Forall (fun r => 0 <= defective_chips r) data.
Proof.
  intros (Hpos & _). split; eapply Forall_impl; try exact Hpos;
    cbn; intros r [? ?]; assumption.
Qed.

Lemma group_sum_exact (val : production_record -> Z) k data :
  Forall (fun r => 0 <= val r) data ->
  column_total val data <= Int64.max_int ->
  group_sum date val k data = group_total date val k data.
Proof.
  intros Hpos Hmax. rewrite group_sum_total. apply wrap_in_range.
  pose proof (group_total_bounds _ date val k data Hpos).
  unfold Int64.in_range, Int64.min_int. lia.
Qed.

(** C1: for every valid table, the Daily Aggregate has exactly one row per
    distinct date of the input (its dates are pairwise different and are
    exactly the dates that occur in the input); the produced and defective
    counts of a row are the sums over the input rows of that date; and the
    produced (and the defective) counts of the aggregate add up to those
    of the input. *)
Theorem process_data_one_row_per_date (data : list production_record) :
  valid_table data ->
  NoDup (map Daily.date (process_data data))
  /\ (forall d, In d (map Daily.date (process_data data))
                <-> In d (map date data))
  /\ (forall row, In row (process_data data) ->
        Daily.produced_chips row
        = Zsum (map produced_chips (group_rows date (Daily.date row) data))
        /\ Daily.defective_chips row
           = Zsum (map defective_chips (group_rows date (Daily.date row) data)))
  /\ Zsum (map Daily.produced_chips (process_data data))
     = Zsum (map produced_chips data)
  /\ Zsum (map Daily.defective_chips (process_data data))
     = Zsum (map defective_chips data).
Proof.
  intros Hvalid.
  destruct (valid_table_columns data Hvalid) as [Hp Hd].
  destruct Hvalid as (_ & Hpmax & Hdmax).
  repeat split.
  - rewrite process_data_dates.
    apply ascending_NoDup, groupby_index_ascending.
  - rewrite process_data_dates. apply groupby_index_In.
  - rewrite process_data_dates. apply groupby_index_In.
  - destruct (process_data_row data row H) as (_ & E & _).
    rewrite E. now apply group_sum_exact.
  - destruct (process_data_row data row H) as (_ & _ & E & _).
    rewrite E. now apply group_sum_exact.
  - rewrite process_data_produced.
    now destruct (groupby_sum_total_exact _ date produced_chips data Hp Hpmax).
  - rewrite process_data_defective.
    now destruct (groupby_sum_total_exact _ date defective_chips data Hd Hdmax).
Qed.

Lemma process_data_one_row_per_date_witness :
  valid_table scenario
  /\ NoDup (map Daily.date (process_data scenario))
  /\ Zsum (map Daily.produced_chips (process_data scenario))
     = Zsum (map produced_chips scenario).
Proof.
  assert (Hvalid : valid_table scenario).
  { unfold valid_table, scenario, record, column_total, Int64.max_int; cbn.
    repeat split; try lia. repeat constructor; cbn; lia. }
  split; [exact Hvalid|].
  destruct (process_data_one_row_per_date scenario Hvalid)
    as (Hnodup & _ & _ & Hsum & _).
  split; [exact Hnodup|exact Hsum].
Defined.

(** C8: for every input table, the rows of the Daily Aggregate are in
    strictly ascending order of their date key, hence without a repeated
    date. *)
Theorem process_data_dates_ascending (data : list production_record) :
  ascending (map Daily.date (process_data data))
  /\ NoDup (map Daily.date (process_data data)).
Proof.
  rewrite process_data_dates. split.
  - apply groupby_index_ascending.
  - apply ascending_NoDup, groupby_index_ascending.
Qed.

(** ** Integers as float64 values *)

Lemma digits2_pos_lower m : 2 ^ (Zpos (digits2_pos m) - 1) <= Zpos m.
Proof.
  induction m as [m IH|m IH|]; cbn [digits2_pos]; [| |cbn; lia].
  - rewrite Pos2Z.inj_succ.
    replace (Z.succ (Zpos (digits2_pos m)) - 1)
      with (Z.succ (Zpos (digits2_pos m) - 1)) by lia.
    rewrite Z.pow_succ_r by lia. lia.
  - rewrite Pos2Z.inj_succ.
    replace (Z.succ (Zpos (digits2_pos m)) - 1)
      with (Z.succ (Zpos (digits2_pos m) - 1)) by lia.
    rewrite Z.pow_succ_r by lia. lia.
Qed.

Lemma shr_1_lower mrs c : 2 * c <= shr_m mrs -> 0 < c -> c <= shr_m (shr_1 mrs).
Proof.
  destruct mrs as [m r s]. cbn [shr_m shr_1].
  destruct m as [|[p|p|]|[p|p|]]; cbn [shr_m]; lia.
Qed.

Lemma iter_shr_1_lower p : forall mrs c,
  0 < c -> 2 ^ Zpos p * c <= shr_m mrs -> c <= shr_m (iter_pos shr_1 p mrs).
Proof.
  induction p as [p IH|p IH|]; intros mrs c Hc H; cbn [iter_pos].
  - rewrite (Pos2Z.inj_xI p), Z.pow_add_r, Z.pow_mul_r, Z.pow_1_r in H by lia.
    replace (2 ^ 2) with 4 in H by reflexivity.
    assert (Hp : 0 < 2 ^ Zpos p) by (apply Z.pow_pos_nonneg; lia).
    apply IH; [exact Hc|]. apply IH; [nia|].
    apply shr_1_lower; [|nia].
    replace (4 ^ Zpos p) with (2 ^ Zpos p * 2 ^ Zpos p) in H; [nia|].
    rewrite <- Z.pow_mul_l. reflexivity.
  - rewrite (Pos2Z.inj_xO p), Z.pow_mul_r in H by lia.
    replace (2 ^ 2) with 4 in H by reflexivity.
    assert (Hp : 0 < 2 ^ Zpos p) by (apply Z.pow_pos_nonneg; lia).
    replace (4 ^ Zpos p) with (2 ^ Zpos p * 2 ^ Zpos p) in H
      by (rewrite <- Z.pow_mul_l; reflexivity).
    apply IH; [exact Hc|]. apply IH; nia.
  - apply shr_1_lower; [|exact Hc]. rewrite Z.pow_1_r in H. exact H.
Qed.

Lemma shr_record_of_loc_m m l : shr_m (shr_record_of_loc m l) = m.
Proof. destruct l as [|[]]; reflexivity. Qed.

Lemma shr_fexp_positive m e l :
  0 < m -> -1074 <= e ->
  0 < shr_m (fst (shr_fexp Float64.prec Float64.emax m e l))
  /\ -1074 <= snd (shr_fexp Float64.prec Float64.emax m e l).
Proof.
  intros Hm He. destruct m as [|q|q]; try lia.
  unfold shr_fexp, shr. cbn [Zdigits2].
  pose proof (digits2_pos_lower q) as Hd.
  set (d := Zpos (digits2_pos q)) in *.
  assert (Hd1 : 1 <= d) by (unfold d; lia).
  destruct (fexp Float64.prec Float64.emax (d + e) - e) as [|p|p] eqn:En;
    cbn [fst snd]; rewrite ?shr_record_of_loc_m; try lia.
  assert (Hp : Zpos p <= d - 1).
  { unfold fexp, emin, Float64.prec, Float64.emax in En. lia. }
  split; [|lia].
  apply Z.lt_le_trans with 1; [lia|].
  apply iter_shr_1_lower; [lia|].
  rewrite shr_record_of_loc_m, Z.mul_1_r.
  apply Z.le_trans with (2 ^ (d - 1)); [|exact Hd].
  apply Z.pow_le_mono_r; lia.
Qed.

Lemma binary_round_aux_nonzero s m e l :
  0 < m -> -1074 <= e ->
  nonzero_of_sign s (binary_round_aux Float64.prec Float64.emax s m e l).
Proof.
  intros Hm He. unfold binary_round_aux.
  pose proof (shr_fexp_positive m e l Hm He) as [H1 H2].
  destruct (shr_fexp Float64.prec Float64.emax m e l) as [mrs' e'].
  cbn [fst snd] in H1, H2.
  set (m1 := round_nearest_even (shr_m mrs') (loc_of_shr_record mrs')).
  assert (Hm1 : 0 < m1).
  { unfold m1, round_nearest_even.
    destruct (loc_of_shr_record mrs') as [|[]]; try lia.
    destruct (Z.even (shr_m mrs')); lia. }
  pose proof (shr_fexp_positive m1 e' loc_Exact Hm1 H2) as [H3 _].
  destruct (shr_fexp Float64.prec Float64.emax m1 e' loc_Exact) as [mrs'' e''].
  cbn [fst] in H3.
  destruct (shr_m mrs''); try lia.
  destruct (e'' <=? Float64.emax - Float64.prec); reflexivity.
Qed.

Lemma of_int_nonzero z :
  z <> 0 -> nonzero_of_sign (z <? 0) (Float64.of_int z).
Proof.
  intros Hz. unfold Float64.of_int, binary_normalize.
  destruct z as [|p|p]; [contradiction| |];
    unfold binary_round;
    destruct (shl_align p 0 _) as [mz ez] eqn:E;
    apply binary_round_aux_nonzero; try lia;
    unfold shl_align, fexp, emin, Float64.prec, Float64.emax in E;
    match type of E with
    | match ?n with _ => _ end = _ => destruct n eqn:En
    end; injection E as <- <-; lia.
Qed.

(** ** Division by a zero count *)

Lemma round_infinity s :
  Float64.round (Float64.mul (S754_infinity s) (Float64.of_int 100)) 2
  = S754_infinity s.
Proof. destruct s; vm_compute; reflexivity. Qed.

Lemma defective_percentage_of_zero_zero :
  defective_percentage_of 0 0 = Float64.nan.
Proof. vm_compute. reflexivity. Qed.

Lemma defective_percentage_of_nonzero_zero d :
  d <> 0 -> defective_percentage_of d 0 = S754_infinity (d <? 0).
Proof.
  intros Hd. pose proof (of_int_nonzero d Hd) as Hs.
  unfold defective_percentage_of, ratio_percent.
  change (Float64.of_int 0) with (S754_zero false).
  destruct (Float64.of_int d) as [s|s| |s m e]; cbn in Hs; try contradiction;
    subst s; unfold Float64.div at 1; cbn [SFdiv];
    rewrite xorb_false_r; apply round_infinity.
Qed.

(** C2 (as amended): every row of the Daily Aggregate has
    defective_percentage = round(defective_chips / produced_chips * 100, 2)
    in float64; on a date whose produced_chips sum is 0 nothing is raised
    and the percentage is NaN when the defective_chips sum is 0 too, and an
    infinity of the sign of the defective_chips sum otherwise. *)
Theorem process_data_percentage (data : list production_record)
    (row : Daily.row) :
  In row (process_data data) ->
  Daily.defective_percentage row
  = Float64.round
      (ratio_percent (Daily.defective_chips row) (Daily.produced_chips row)) 2
  /\ (Daily.produced_chips row = 0 ->
      (Daily.defective_chips row = 0 ->
       Daily.defective_percentage row = Float64.nan)
      /\ (Daily.defective_chips row <> 0 ->
          Daily.defective_percentage row
          = S754_infinity (Daily.defective_chips row <? 0))).
Proof.
  intros Hin.
  destruct (process_data_row data row Hin) as (_ & _ & _ & Hpct).
  split; [exact Hpct|].
  intros Hzero. rewrite Hpct, Hzero. split.
  - intros ->. exact defective_percentage_of_zero_zero.
  - apply defective_percentage_of_nonzero_zero.
Qed.

Lemma process_data_percentage_witness :
  In idle_row (process_data idle_day)
  /\ Daily.defective_percentage idle_row = Float64.nan.
Proof.
  assert (Hin : In idle_row (process_data idle_day)) by (left; reflexivity).
  split; [exact Hin|].
  destruct (process_data_percentage idle_day idle_row Hin) as [_ Hzero].
  destruct (Hzero eq_refl) as [Hnan _]. exact (Hnan eq_refl).
Defined.

(** C2, as stated, fails: on a date with no produced chip and six
    defective ones the percentage is plus infinity, not the undefined
    marker NaN. *)
Lemma zero_production_is_not_always_undefined :
  ~ (forall data row,
        In row (process_data data) ->
        Daily.produced_chips row = 0 ->
        Daily.defective_percentage row = Float64.nan).
Proof.
  intros Hclaim.
  specialize
    (Hclaim [record "2024-01-01" 0 6 "300" "A" "M1"]
            {| Daily.date := "2024-01-01"; Daily.produced_chips := 0;
               Daily.defective_chips := 6;
               Daily.defective_percentage := S754_infinity false |}).
  cbn [Daily.produced_chips Daily.defective_percentage] in Hclaim.
  assert (Hnan : S754_infinity false = Float64.nan).
  { apply Hclaim; [left; reflexivity|reflexivity]. }
  discriminate Hnan.
Qed.

(** ** The breakdowns *)

Lemma lookup_present k (s : list (string * Z)) :
  In k (map fst s) -> lookup k s = Some (group_get k s).
Proof.
  intros Hin. unfold lookup, group_get.
  destruct (find (fun p => String.eqb (fst p) k) s) as [p|] eqn:Hf;
    [reflexivity|].
  apply in_map_iff in Hin. destruct Hin as (p & Hp & Hin).
  pose proof (find_none _ _ Hf p Hin) as Hno. cbn in Hno.
  rewrite Hp, String.eqb_refl in Hno. discriminate.
Qed.

Lemma fold_key_insert_present l : forall ks,
  ascending ks -> (forall x, In x l -> In x ks) ->
  fold_left (fun ks k => key_insert k ks) l ks = ks.
Proof.
  induction l as [|k l IH]; intros ks Hs Hall; [reflexivity|].
  cbn [fold_left].
  rewrite key_insert_present by (auto; apply Hall; now left).
  apply IH; [exact Hs|]. intros x Hx. apply Hall. now right.
Qed.

(** Each breakdown lists, for every key of the raw table in ascending
    order, the rounded ratio of the two [int64] sums of the key's rows. *)
Lemma average_defect_rate_by_groups key data :
  average_defect_rate_by key data
  = map (fun k =>
           (k, defective_percentage_of
                 (group_sum key defective_chips k data)
                 (group_sum key produced_chips k data)))
        (groupby_index key data).
Proof.
  unfold average_defect_rate_by, series_round, series_mul, series_div.
  rewrite fold_key_insert_present.
  - rewrite groupby_sum_keys, !map_map. apply map_ext_in.
    intros k Hk. cbn [fst snd].
    rewrite !lookup_present by (rewrite groupby_sum_keys; exact Hk).
    now rewrite !groupby_sum_get.
  - apply groupby_sum_ascending.
  - intros x. now rewrite !groupby_sum_keys.
Qed.

Lemma average_defect_rate_by_In key data k x :
  In (k, x) (average_defect_rate_by key data)
  <-> In k (map key data)
      /\ x = defective_percentage_of
               (group_sum key defective_chips k data)
               (group_sum key produced_chips k data).
Proof.
  rewrite average_defect_rate_by_groups, in_map_iff. split.
  - intros (k' & Heq & Hin). injection Heq as -> <-.
    split; [now apply groupby_index_In|reflexivity].
  - intros [Hin ->]. exists k. split; [reflexivity|].
    now apply groupby_index_In.
Qed.


(** C10: [additional_analysis] gives every category of the table a
    value; for a category whose produced_chips sum is 0 the unguarded
    division yields a float64 value and no error: NaN when the
    defective_chips sum is 0, an infinity otherwise. *)
Theorem additional_analysis_zero_production
    (key : production_record -> string) (data : list production_record)
    (k : string) :
  In k (map key data) ->
  exists x,
    In (k, x) (average_defect_rate_by key data)
    /\ (forall y, In (k, y) (average_defect_rate_by key data) -> y = x)
    /\ (group_sum key produced_chips k data = 0 ->
        (group_sum key defective_chips k data = 0 -> x = Float64.nan)
        /\ (group_sum key defective_chips k data <> 0 ->
            Float64.is_infinite x = true)).
Proof.
  intros Hin. eexists. split; [|split].
  - apply average_defect_rate_by_In. split; [exact Hin|reflexivity].
  - intros y Hy. now apply average_defect_rate_by_In in Hy.
  - intros ->. split.
    + intros ->. exact defective_percentage_of_zero_zero.
    + intros Hd. now rewrite defective_percentage_of_nonzero_zero.
Qed.

Lemma additional_analysis_zero_production_witness :
  In "A"%string (map shift idle_shifts)
  /\ exists x, In ("A"%string, x) (average_defect_rate_by shift idle_shifts).
Proof.
  assert (Hin : In "A"%string (map shift idle_shifts)) by (left; reflexivity).
  split; [exact Hin|].
  destruct (additional_analysis_zero_production shift idle_shifts "A" Hin)
    as (x & Hx & _).
  exists x. exact Hx.
Defined.

(** ** The anomaly scanner *)

Lemma analyze_defective_percentage_filter grouped :
  analyze_defective_percentage grouped
  = map (fun row => Print (notice row)) (filter exceeds_threshold grouped).
Proof.
  induction grouped as [|row rest IH]; [reflexivity|].
  cbn [analyze_defective_percentage filter].
  destruct (exceeds_threshold row); cbn [map]; now rewrite IH.
Qed.

Lemma digit_is_digit d : 0 <= d <= 9 -> is_digit (digit d).
Proof. intros Hd. now exists d. Qed.

Lemma format_2f_two_decimals x :
  Float64.is_finite x = true -> two_decimals (format_2f x).
Proof.
  destruct x as [s|s| |s m e]; cbn [Float64.is_finite]; try discriminate;
    intros _; cbn [format_2f].
  - exists (sign_text s ++ "0")%string, (digit 0), (digit 0).
    split; [destruct s; reflexivity|].
    split; apply digit_is_digit; lia.
  - set (n := hundredths m e).
    exists (sign_text s ++ decimal (n / 100))%string,
           (digit (n mod 100 / 10)), (digit (n mod 10)).
    split.
    + destruct s; cbn [sign_text append]; [f_equal|];
        induction (decimal (n / 100)) as [|c t IHt]; cbn [append];
        try reflexivity; now rewrite IHt.
    + pose proof (Z.mod_pos_bound n 100 ltac:(lia)) as H100.
      pose proof (Z.mod_pos_bound n 10 ltac:(lia)) as H10.
      split; apply digit_is_digit; [|lia].
      split; [apply Z.div_pos; lia|].
      apply Z.lt_succ_r, Z.div_lt_upper_bound; lia.
Qed.

Lemma string_tail_eq c1 s1 c2 s2 : String c1 s1 = String c2 s2 -> s1 = s2.
Proof. intros H. now injection H. Qed.

Lemma append_assoc (a b c : string) :
  ((a ++ b) ++ c = a ++ (b ++ c))%string.
Proof. induction a as [|x a IH]; cbn [append]; [reflexivity|now rewrite IH]. Qed.

Lemma append_empty_r (a : string) : (a ++ "")%string = a.
Proof. induction a as [|x a IH]; cbn [append]; [reflexivity|now rewrite IH]. Qed.

Lemma value_acc_app v s1 s2 :
  value_acc v (s1 ++ s2) = value_acc (value_acc v s1) s2.
Proof.
  revert v. induction s1 as [|c s1 IH]; intros v; cbn [append value_acc];
    [reflexivity|apply IH].
Qed.

Lemma all_digits_app s1 s2 :
  all_digits s1 -> all_digits s2 -> all_digits (s1 ++ s2).
Proof.
  induction s1 as [|c s1 IH]; cbn [append all_digits]; [auto|].
  intros [Hc Hs1] Hs2. split; auto.
Qed.

Lemma digit_code d : 0 <= d <= 9 -> Z.of_N (N_of_ascii (digit d)) - 48 = d.
Proof.
  intros Hd. unfold digit. rewrite N_ascii_embedding by lia. lia.
Qed.

(** The digits that [decimal_digits] puts in front of [acc] read as [n]. *)
Lemma decimal_digits_value fuel : forall n acc,
  (0 < fuel)%nat -> 0 <= n < 10 ^ Z.of_nat fuel ->
  exists ds k,
    decimal_digits fuel n acc = (ds ++ acc)%string
    /\ ds <> ""%string /\ all_digits ds /\ 0 <= k
    /\ forall v, value_acc v ds = v * 10 ^ k + n.
Proof.
  induction fuel as [|fuel IH]; intros n acc Hfuel Hn; [lia|].
  cbn [decimal_digits].
  pose proof (Z.mod_pos_bound n 10 ltac:(lia)) as Hmod.
  pose proof (Z.div_mod n 10 ltac:(lia)) as Hdm.
  destruct (Z.eqb_spec (n / 10) 0) as [Hq|Hq].
  - exists (String (digit (n mod 10)) ""), 1.
    split; [reflexivity|]. split; [discriminate|].
    split; [split; [apply digit_is_digit; lia|exact I]|].
    split; [lia|].
    intros v. cbn [value_acc]. rewrite digit_code by lia. lia.
  - assert (Hq0 : 0 < n / 10).
    { assert (0 <= n / 10) by (apply Z.div_pos; lia). lia. }
    assert (Hfuel' : (0 < fuel)%nat).
    { destruct fuel; [|lia]. cbn in Hn. lia. }
    assert (Hn' : 0 <= n / 10 < 10 ^ Z.of_nat fuel).
    { split; [lia|]. apply Z.div_lt_upper_bound; [lia|].
      rewrite Nat2Z.inj_succ, Z.pow_succ_r in Hn by lia. lia. }
    destruct (IH (n / 10) (String (digit (n mod 10)) acc) Hfuel' Hn')
      as (ds & k & E & Hne & Hd & Hk & Hv).
    exists (ds ++ String (digit (n mod 10)) "")%string, (k + 1).
    split; [rewrite E, append_assoc; reflexivity|].
    split; [destruct ds; [contradiction|discriminate]|].
    split; [apply all_digits_app; [exact Hd|];
            split; [apply digit_is_digit; lia|exact I]|].
    split; [lia|].
    intros v. rewrite value_acc_app, Hv. cbn [value_acc].
      rewrite digit_code by lia.
      rewrite Z.pow_add_r, Z.pow_1_r by lia. lia.
Qed.

Lemma decimal_reads_back n :
  0 <= n ->
  decimal n <> ""%string /\ all_digits (decimal n)
  /\ decimal_value (decimal n) = n.
Proof.
  intros Hn. unfold decimal.
  assert (Hb : 0 <= n < 10 ^ Z.of_nat (S (Z.to_nat (Z.log2 n)))).
  { split; [exact Hn|].
    rewrite Nat2Z.inj_succ, Z2Nat.id by apply Z.log2_nonneg.
    destruct (Z.eq_dec n 0) as [->|Hne]; [cbn; lia|].
    pose proof (Z.log2_spec n ltac:(lia)) as [_ Hlt].
    apply Z.lt_le_trans with (1 := Hlt).
    apply Z.pow_le_mono_l. pose proof (Z.log2_nonneg n). lia. }
  destruct (decimal_digits_value _ n ""%string (Nat.lt_0_succ _) Hb)
    as (ds & k & E & Hne & Hd & _ & Hv).
  rewrite E, append_empty_r.
  split; [exact Hne|]. split; [exact Hd|].
  unfold decimal_value. rewrite Hv. lia.
Qed.

Lemma div_half_even_nearest num den :
  0 < den -> nearest_even (Float64.div_half_even num den) num den.
Proof.
  intros Hden. unfold nearest_even, Float64.div_half_even.
  pose proof (Z.mod_pos_bound num den Hden) as Hr.
  pose proof (Z.div_mod num den ltac:(lia)) as Hdm.
  set (q := num / den) in *. set (r := num mod den) in *.
  assert (Hq : num - q * den = r) by lia.
  assert (Hq1 : num - (q + 1) * den = r - den) by lia.
  destruct (Z.compare_spec (2 * r) den) as [Heq|Hlt|Hgt].
  - destruct (Z.even q) eqn:Hev.
    + rewrite Hq. split; [lia|auto].
    + rewrite Hq1. split; [lia|]. intros _.
      rewrite Z.even_add, Hev. reflexivity.
  - rewrite Hq. split; lia.
  - rewrite Hq1. split; lia.
Qed.

Lemma div_half_even_nonneg num den :
  0 <= num -> 0 < den -> 0 <= Float64.div_half_even num den.
Proof.
  intros Hnum Hden. unfold Float64.div_half_even.
  assert (0 <= num / den) by (apply Z.div_pos; lia).
  destruct (2 * (num mod den) ?= den); [destruct (Z.even _)| |]; lia.
Qed.

(** The [.2f] text of a finite float64 is its sign followed by the decimal
    writing of its value in hundredths, rounded half to even. *)
Lemma format_2f_finite s m e :
  exists n t,
    rounds_to_hundredths m e n
    /\ format_2f (S754_finite s m e) = (sign_text s ++ t)%string
    /\ denotes_hundredths t n.
Proof.
  exists (hundredths m e).
  exists (decimal (hundredths m e / 100) ++ "."
            ++ String (digit (hundredths m e mod 100 / 10))
                      (String (digit (hundredths m e mod 10)) ""))%string.
  assert (Hden : 0 < 2 ^ Z.max (- e) 0) by (apply Z.pow_pos_nonneg; lia).
  assert (Hnum : 0 <= Zpos m * 100 * 2 ^ Z.max e 0).
  { assert (0 < 2 ^ Z.max e 0) by (apply Z.pow_pos_nonneg; lia). lia. }
  pose proof (div_half_even_nonneg _ _ Hnum Hden) as Hn.
  fold (hundredths m e) in Hn. set (n := hundredths m e) in *.
  split; [apply div_half_even_nearest; exact Hden|].
  split; [reflexivity|].
  assert (Hip : 0 <= n / 100) by (apply Z.div_pos; lia).
  destruct (decimal_reads_back (n / 100) Hip) as (Hne & Hd & Hv).
  assert (H1 : 0 <= n mod 100 / 10 <= 9) by (Z.div_mod_to_equations; lia).
  assert (H2 : 0 <= n mod 10 <= 9) by (Z.div_mod_to_equations; lia).
  exists (decimal (n / 100)), (digit (n mod 100 / 10)), (digit (n mod 10)).
  split; [reflexivity|]. split; [exact Hne|]. split; [exact Hd|].
  split; [apply digit_is_digit; exact H1|].
  split; [apply digit_is_digit; exact H2|].
  rewrite Hv. unfold decimal_value. cbn [value_acc].
  rewrite !digit_code by assumption.
  Z.div_mod_to_equations; lia.
Qed.

(** C3 (as amended): for every Daily Aggregate, the scanner prints one
    notice for each row whose defective_percentage is strictly greater
    than 5.0 (a row at exactly 5.0 is passed over) and for no other row, in
    the order of the aggregate; the notice names the date of the row and
    its percentage in Python's [.2f] format: for a finite percentage the
    decimal text, with two decimals, of the percentage rounded half to even
    to hundredths, and for an infinite percentage the text [inf]. *)
Theorem analyze_defective_percentage_reports (grouped : list Daily.row) :
  analyze_defective_percentage grouped
  = map (fun row => Print (notice row))
        (filter (fun row =>
                   Float64.ltb (Float64.of_int 5)
                               (Daily.defective_percentage row))
                grouped)
  /\ Float64.ltb (Float64.of_int 5) (Float64.of_int 5) = false
  /\ forall row,
       Float64.ltb (Float64.of_int 5) (Daily.defective_percentage row) = true ->
       exists t,
         notice row
         = ("Внимание: Висок процент дефектни чипове на дата "
              ++ Daily.date row ++ ": " ++ t ++ "%")%string
         /\ ((Daily.defective_percentage row = S754_infinity false
              /\ t = "inf"%string)
             \/ (exists m e n,
                    Daily.defective_percentage row = S754_finite false m e
                    /\ rounds_to_hundredths m e n
                    /\ denotes_hundredths t n)).
Proof.
  split; [apply analyze_defective_percentage_filter|].
  split; [reflexivity|].
  intros row Hlt. unfold notice.
  destruct (Daily.defective_percentage row) as [s|s| |s m e] eqn:E.
  - cbv in Hlt. discriminate Hlt.
  - destruct s; [cbv in Hlt; discriminate Hlt|].
    exists "inf"%string. split; [reflexivity|]. left. now split.
  - cbv in Hlt. discriminate Hlt.
  - destruct s; [cbv in Hlt; discriminate Hlt|].
    destruct (format_2f_finite false m e) as (n & t & Hr & Hf & Hd).
    exists t. split; [now rewrite Hf|].
    right. exists m, e, n. split; [reflexivity|]. split; assumption.
Qed.

Lemma analyze_defective_percentage_reports_witness :
  Float64.ltb (Float64.of_int 5) (Daily.defective_percentage flagged_row)
  = true
  /\ exists t,
       notice flagged_row
       = ("Внимание: Висок процент дефектни чипове на дата "
            ++ Daily.date flagged_row ++ ": " ++ t ++ "%")%string.
Proof.
  assert (Hlt : Float64.ltb (Float64.of_int 5)
                  (Daily.defective_percentage flagged_row) = true)
    by (vm_compute; reflexivity).
  split; [exact Hlt|].
  destruct (analyze_defective_percentage_reports [flagged_row])
    as (_ & _ & Hrow).
  destruct (Hrow flagged_row Hlt) as (t & Ht & _).
  exists t. exact Ht.
Defined.

(** C3, as stated, fails: the date of [faulty_day], with six defective
    chips and no production, is reported, and its notice ends in [inf%],
    which is no percentage with two decimal places. *)
Lemma infinite_percentage_has_no_decimals :
  ~ (forall grouped row,
        In row grouped ->
        Float64.ltb (Float64.of_int 5) (Daily.defective_percentage row) = true ->
        exists t,
          notice row
          = ("Внимание: Висок процент дефектни чипове на дата "
               ++ Daily.date row ++ ": " ++ t ++ "%")%string
          /\ two_decimals t).
Proof.
  intros Hclaim.
  assert (Hin : In faulty_row (process_data faulty_day))
    by (left; reflexivity).
  destruct (Hclaim (process_data faulty_day) faulty_row Hin eq_refl)
    as (t & Hn & ip & d1 & d2 & Ht & _ & _).
  subst t. cbv [notice faulty_row Daily.date Daily.defective_percentage
                format_2f sign_text] in Hn.
  cbn [append] in Hn. repeat apply string_tail_eq in Hn.
  repeat (destruct ip as [|? ip]; cbn [append] in Hn;
          [discriminate Hn|]; first [discriminate Hn|apply string_tail_eq in Hn]).
Qed.


(** ** The scenario of the specification *)

#[local] Set Warnings "-inexact-float".

(** C7: on the three input rows (2024-01-01, 100, 6), (2024-01-01, 50, 2)
    and (2024-01-02, 80, 1), whatever their other cells,
    [process_data] returns exactly the rows (2024-01-01, 150, 8, 5.33) and
    (2024-01-02, 80, 1, 1.25), and the scanner prints a notice for
    2024-01-01 and none for 2024-01-02. *)
Theorem scenario_daily_aggregate (w1 s1 m1 w2 s2 m2 w3 s3 m3 : string) :
  let data := [ record "2024-01-01" 100 6 w1 s1 m1;
                record "2024-01-01" 50 2 w2 s2 m2;
                record "2024-01-02" 80 1 w3 s3 m3 ] in
  process_data data
  = [ {| Daily.date := "2024-01-01"; Daily.produced_chips := 150;
         Daily.defective_chips := 8;
         Daily.defective_percentage := float_literal 5.33 |};
      {| Daily.date := "2024-01-02"; Daily.produced_chips := 80;
         Daily.defective_chips := 1;
         Daily.defective_percentage := float_literal 1.25 |} ]
  /\ analyze_defective_percentage (process_data data)
     = [ Print "Внимание: Висок процент дефектни чипове на дата 2024-01-01: 5.33%" ]
  /\ filter exceeds_threshold (process_data data)
     = [ {| Daily.date := "2024-01-01"; Daily.produced_chips := 150;
            Daily.defective_chips := 8;
            Daily.defective_percentage := float_literal 5.33 |} ].
Proof.
  intros data.
  assert (E : process_data data
              = [ {| Daily.date := "2024-01-01"; Daily.produced_chips := 150;
                     Daily.defective_chips := 8;
                     Daily.defective_percentage := float_literal 5.33 |};
                  {| Daily.date := "2024-01-02"; Daily.produced_chips := 80;
                     Daily.defective_chips := 1;
                     Daily.defective_percentage := float_literal 1.25 |} ])
    by (vm_compute; reflexivity).
  rewrite E. repeat split; vm_compute; reflexivity.
Qed.

(** ** The loader and the script *)

(** C4: when the loader fails in one of its three ways (file not found,
    empty file, unparseable file), the whole run consists of the loader's
    one message: no chart is shown, no file is written, no statistic, notice
    or breakdown is printed, and neither the aggregate nor the statistics
    are computed. *)
Theorem loader_failure_skips_pipeline
    (add_reduce : list Float64.t -> Float64.t) (read_csv : read_csv_outcome) :
  loader_failure read_csv = true ->
  (exists message,
      trace (main add_reduce read_csv) = [Print message]
      /\ prefix "Error: " message = true)
  /\ Forall (fun e => downstream e = false) (trace (main add_reduce read_csv))
  /\ grouped_data (main add_reduce read_csv) = None
  /\ statistics (main add_reduce read_csv) = None.
Proof.
  destruct read_csv; cbn [loader_failure]; try discriminate; intros _;
    (split; [eexists; split; reflexivity|]);
    (split; [repeat constructor|split; reflexivity]).
Qed.

Lemma loader_failure_skips_pipeline_witness :
  loader_failure FileNotFoundError = true
  /\ trace (main sequential_sum FileNotFoundError)
     = [Print "Error: File semiconductor_production.csv not found."].
Proof.
  split; [reflexivity|].
  destruct (loader_failure_skips_pipeline sequential_sum FileNotFoundError
              eq_refl) as ((message & Htrace & _) & _).
  reflexivity.
Defined.

(** When the file is parsed, every effect of the run is a downstream one
    and the aggregate and the statistics are computed. *)
Lemma parsed_runs_pipeline add_reduce data :
  Forall (fun e => downstream e = true)
         (trace (main add_reduce (Parsed data)))
  /\ grouped_data (main add_reduce (Parsed data)) = Some (process_data data)
  /\ statistics (main add_reduce (Parsed data))
     = Some (calculate_statistics add_reduce (process_data data)).
Proof.
  split; [|split; reflexivity].
  cbn [main read_data trace app visualize_data save_processed_data].
  repeat (constructor; [reflexivity|]).
  apply Forall_app. split.
  - rewrite analyze_defective_percentage_filter. apply Forall_forall.
    intros e He. apply in_map_iff in He. destruct He as (row & <- & _).
    reflexivity.
  - unfold additional_analysis. repeat constructor.
Qed.

(** C6: for every non-empty Daily Aggregate, [calculate_statistics]
    returns the pair of the arithmetic mean of the produced_chips column
    and of its population standard deviation, the one with divisor N. *)
Theorem calculate_statistics_population
    (add_reduce : list Float64.t -> Float64.t) (grouped : list Daily.row) :
  grouped <> [] ->
  calculate_statistics add_reduce grouped
  = (arithmetic_mean add_reduce (map Daily.produced_chips grouped),
     population_std add_reduce (map Daily.produced_chips grouped)).
Proof.
  intros Hne. unfold calculate_statistics, np_mean, np_std, Series_mean,
    Series_std, Series_var, arithmetic_mean, population_std, squared_deviations.
  rewrite length_map.
  assert (Hlen : 0 < Z.of_nat (List.length grouped)).
  { destruct grouped; [contradiction|]. cbn [List.length]. lia. }
  destruct (Z.ltb_spec 0 (Z.of_nat (List.length grouped))) as [_|]; [|lia].
  destruct (Z.leb_spec (Z.of_nat (List.length grouped)) 0) as [|_]; [lia|].
  rewrite Z.sub_0_r, !map_map. unfold arithmetic_mean.
  rewrite length_map, !map_map. reflexivity.
Qed.

Lemma calculate_statistics_population_witness :
  process_data scenario <> []
  /\ calculate_statistics sequential_sum (process_data scenario)
     = (float_literal 115, float_literal 35).
Proof.
  assert (Hne : process_data scenario <> []) by (vm_compute; discriminate).
  split; [exact Hne|].
  rewrite (calculate_statistics_population sequential_sum _ Hne).
  vm_compute. reflexivity.
Defined.

(** With the divisor N - 1 the deviation of the scenario would be about
    49.5 instead of 35. *)
Lemma scenario_sample_std :
  Series_std sequential_sum [150; 80] 1 = float_literal 49.49747468305833.
Proof. vm_compute. reflexivity. Qed.

(** * Further properties of the script *)

(** ** Groupings as functions of the keys *)

Lemma series_by_get (l : list (string * Z)) :
  NoDup (map fst l) ->
  l = map (fun k => (k, group_get k l)) (map fst l).
Proof.
  induction l as [|[k0 s0] l IH]; intros Hnd; [reflexivity|].
  inversion Hnd as [|? ? Hnotin Hnd']; subst.
  cbn [map fst]. rewrite group_get_cons, String.eqb_refl. f_equal.
  rewrite (IH Hnd') at 1. apply map_ext_in. intros k Hk.
  rewrite group_get_cons.
  destruct (String.eqb_spec k0 k) as [->|_]; [contradiction|reflexivity].
Qed.

Lemma groupby_sum_by_key {R} (key : R -> string) (val : R -> Z) data :
  groupby_sum key val data
  = map (fun k => (k, group_sum key val k data)) (groupby_index key data).
Proof.
  rewrite (series_by_get (groupby_sum key val data))
    by (apply ascending_NoDup, groupby_sum_ascending).
  rewrite groupby_sum_keys. apply map_ext. intros k.
  now rewrite groupby_sum_get.
Qed.

Lemma combine_map_same {A B C} (f : A -> B) (g : A -> C) l :
  combine (map f l) (map g l) = map (fun x => (f x, g x)) l.
Proof. induction l as [|x l IH]; cbn; [reflexivity|now rewrite IH]. Qed.

Lemma process_data_rows (data : list production_record) :
  process_data data = map (daily_row_of data) (groupby_index date data).
Proof.
  unfold process_data.
  rewrite !groupby_sum_by_key, combine_map_same, map_map. reflexivity.
Qed.

(** X1: for every table, overflowing sums included, the aggregate is the
    list of the distinct dates of the table in ascending order, each with
    the [int64] sums of its lines and the rounded ratio of these. *)
Theorem process_data_by_date (data : list production_record) :
  process_data data = map (daily_row_of data) (groupby_index date data)
  /\ ascending (groupby_index date data)
  /\ (forall d, In d (groupby_index date data) <-> In d (map date data)).
Proof.
  split; [apply process_data_rows|].
  split; [apply groupby_index_ascending|].
  intros d. apply groupby_index_In.
Qed.

(** ** The order of the input lines does not matter *)

Lemma ascending_unique l1 : forall l2,
  ascending l1 -> ascending l2 ->
  (forall x, In x l1 <-> In x l2) -> l1 = l2.
Proof.
  induction l1 as [|h1 t1 IH]; intros [|h2 t2] H1 H2 Hin.
  - reflexivity.
  - exfalso. apply (Hin h2). now left.
  - exfalso. apply (Hin h1). now left.
  - assert (Hh : h1 = h2).
    { destruct (proj1 (Hin h1) (or_introl eq_refl)) as [E|I2]; [now symmetry|].
      destruct (proj2 (Hin h2) (or_introl eq_refl)) as [E|I1]; [exact E|].
      exfalso.
      exact (key_lt_irrefl _
               (key_lt_trans _ _ _ (ascending_head _ _ _ H1 I1)
                                   (ascending_head _ _ _ H2 I2))). }
    subst h2. f_equal.
    apply IH; [exact (ascending_tail _ _ H1)|exact (ascending_tail _ _ H2)|].
    intros x. split; intros Hx.
    + destruct (proj1 (Hin x) (or_intror Hx)) as [E|I]; [|exact I].
      subst x. exfalso.
      exact (key_lt_irrefl _ (ascending_head _ _ _ H1 Hx)).
    + destruct (proj2 (Hin x) (or_intror Hx)) as [E|I]; [|exact I].
      subst x. exfalso.
      exact (key_lt_irrefl _ (ascending_head _ _ _ H2 Hx)).
Qed.

Lemma groupby_index_Permutation {R} (key : R -> string) data data' :
  Permutation data data' -> groupby_index key data = groupby_index key data'.
Proof.
  intros Hp. apply ascending_unique; try apply groupby_index_ascending.
  intros x. rewrite !groupby_index_In. split; apply Permutation_in.
  - now apply Permutation_map.
  - now apply Permutation_map, Permutation_sym.
Qed.

Lemma group_total_Permutation {R} (key : R -> string) (val : R -> Z) k
    data data' :
  Permutation data data' ->
  group_total key val k data = group_total key val k data'.
Proof.
  unfold group_total, group_rows.
  induction 1 as [|r l l' Hp IH|r1 r2 l|l l' l'' _ IH1 _ IH2]; cbn [filter].
  - reflexivity.
  - destruct (String.eqb (key r) k); cbn [map]; rewrite ?Zsum_cons; lia.
  - destruct (String.eqb (key r1) k), (String.eqb (key r2) k); cbn [map];
      rewrite ?Zsum_cons; lia.
  - lia.
Qed.

Lemma group_sum_Permutation {R} (key : R -> string) (val : R -> Z) k
    data data' :
  Permutation data data' ->
  group_sum key val k data = group_sum key val k data'.
Proof.
  intros Hp. rewrite !group_sum_total. f_equal.
  now apply group_total_Permutation.
Qed.

(** X2: the aggregate does not depend on the order of the input lines:
    two tables with the same lines, in whatever order, have the same
    aggregate. *)
Theorem process_data_Permutation (data data' : list production_record) :
  Permutation data data' -> process_data data = process_data data'.
Proof.
  intros Hp. rewrite !process_data_rows.
  rewrite (groupby_index_Permutation date data data' Hp).
  apply map_ext. intros d. unfold daily_row_of.
  now rewrite !(group_sum_Permutation date _ d data data' Hp).
Qed.

Lemma process_data_Permutation_witness :
  Permutation scenario (rev scenario)
  /\ process_data scenario = process_data (rev scenario).
Proof.
  assert (Hp : Permutation scenario (rev scenario))
    by apply Permutation_rev.
  split; [exact Hp|].
  exact (process_data_Permutation scenario (rev scenario) Hp).
Defined.

(** X3: each breakdown has one entry for every category of the table and
    no two entries for the same category, and its entries do not depend on
    the order of the input lines. *)
Theorem average_defect_rate_by_categories
    (key : production_record -> string) (data : list production_record) :
  NoDup (map fst (average_defect_rate_by key data))
  /\ (forall k, In k (map fst (average_defect_rate_by key data))
                <-> In k (map key data))
  /\ (forall data', Permutation data data' ->
        forall k x, In (k, x) (average_defect_rate_by key data)
                    <-> In (k, x) (average_defect_rate_by key data')).
Proof.
  assert (E : map fst (average_defect_rate_by key data)
              = groupby_index key data).
  { rewrite average_defect_rate_by_groups, map_map. cbn [fst]. apply map_id. }
  rewrite E. split; [apply ascending_NoDup, groupby_index_ascending|].
  split; [intros k; apply groupby_index_In|].
  intros data' Hp k x. rewrite !average_defect_rate_by_In.
  rewrite !(group_sum_Permutation key _ k data data' Hp).
  assert (Hk : In k (map key data) <-> In k (map key data')).
  { split; apply Permutation_in; [|apply Permutation_sym];
      now apply Permutation_map. }
  tauto.
Qed.

Lemma average_defect_rate_by_categories_witness :
  Permutation scenario (rev scenario)
  /\ In ("B"%string, defective_percentage_of 2 50)
        (average_defect_rate_by shift (rev scenario)).
Proof.
  assert (Hp : Permutation scenario (rev scenario))
    by apply Permutation_rev.
  split; [exact Hp|].
  destruct (average_defect_rate_by_categories shift scenario)
    as (_ & _ & H).
  apply (H (rev scenario) Hp). right. left. vm_compute. reflexivity.
Defined.

(** ** Totals and overflow *)

Lemma wrap_range z : Int64.in_range (Int64.wrap z).
Proof.
  unfold Int64.in_range, Int64.wrap, Int64.min_int, Int64.max_int.
  pose proof (Z.mod_pos_bound (z + 2 ^ 63) (2 ^ 64) ltac:(lia)). lia.
Qed.

Lemma wrap_congruent z : exists k, Int64.wrap z = z + k * 2 ^ 64.
Proof.
  unfold Int64.wrap. exists (- ((z + 2 ^ 63) / 2 ^ 64)).
  pose proof (Z.div_mod (z + 2 ^ 63) (2 ^ 64) ltac:(lia)). lia.
Qed.

(** X4: for a valid table, whose records have all their cells, and
    whatever the key of a grouping (date, wafer_size, shift or machine_id),
    the produced and the defective sums of the groups add up exactly to
    the grand totals of the table. *)
Theorem groupby_sum_conserves_total
    (key : production_record -> string) (data : list production_record) :
  valid_table data ->
  Zsum (map snd (groupby_sum key produced_chips data))
  = Zsum (map produced_chips data)
  /\ Zsum (map snd (groupby_sum key defective_chips data))
     = Zsum (map defective_chips data).
Proof.
  intros Hvalid.
  destruct (valid_table_columns data Hvalid) as [Hp Hd].
  destruct Hvalid as (_ & Hpmax & Hdmax).
  split.
  - now destruct (groupby_sum_total_exact _ key produced_chips data Hp Hpmax).
  - now destruct (groupby_sum_total_exact _ key defective_chips data Hd Hdmax).
Qed.

Lemma groupby_sum_conserves_total_witness :
  valid_table scenario
  /\ Zsum (map snd (groupby_sum machine_id produced_chips scenario))
     = Zsum (map produced_chips scenario).
Proof.
  assert (Hvalid : valid_table scenario).
  { unfold valid_table, scenario, record, column_total, Int64.max_int; cbn.
    repeat split; try lia. repeat constructor; cbn; lia. }
  split; [exact Hvalid|].
  exact (proj1 (groupby_sum_conserves_total machine_id scenario Hvalid)).
Defined.

(** X5: the counts of the aggregate are always [int64] values, equal to
    the exact sums of the date up to a multiple of [2^64]: a sum that
    overflows wraps around silently. *)
Theorem process_data_counts_wrap (data : list production_record)
    (row : Daily.row) :
  In row (process_data data) ->
  Int64.in_range (Daily.produced_chips row)
  /\ Int64.in_range (Daily.defective_chips row)
  /\ (exists k, Daily.produced_chips row
                = group_total date produced_chips (Daily.date row) data
                  + k * 2 ^ 64)
  /\ (exists k, Daily.defective_chips row
                = group_total date defective_chips (Daily.date row) data
                  + k * 2 ^ 64).
Proof.
  intros Hin.
  destruct (process_data_row data row Hin) as (_ & Ep & Ed & _).
  rewrite Ep, Ed, !group_sum_total.
  repeat split; try apply wrap_range; apply wrap_congruent.
Qed.

Lemma process_data_counts_wrap_witness :
  In (daily_row_of overflow_day "2024-01-01") (process_data overflow_day)
  /\ Daily.produced_chips (daily_row_of overflow_day "2024-01-01")
     = - 2 ^ 63
  /\ Int64.in_range
       (Daily.produced_chips (daily_row_of overflow_day "2024-01-01")).
Proof.
  assert (Hin : In (daily_row_of overflow_day "2024-01-01")
                   (process_data overflow_day))
    by (left; vm_compute; reflexivity).
  split; [exact Hin|]. split; [vm_compute; reflexivity|].
  exact (proj1 (process_data_counts_wrap overflow_day _ Hin)).
Defined.

(** ** Which percentages are NaN *)

Lemma shr_1_bounds mrs :
  0 <= shr_m mrs -> 0 <= shr_m (shr_1 mrs) <= shr_m mrs.
Proof.
  destruct mrs as [m r s]. cbn [shr_m shr_1].
  destruct m as [|[p|p|]|[p|p|]]; cbn [shr_m]; lia.
Qed.

Lemma iter_shr_1_bounds p : forall mrs,
  0 <= shr_m mrs -> 0 <= shr_m (iter_pos shr_1 p mrs) <= shr_m mrs.
Proof.
  induction p as [p IH|p IH|]; intros mrs H; cbn [iter_pos].
  - pose proof (shr_1_bounds mrs H) as H1.
    pose proof (IH _ (proj1 H1)) as H2.
    pose proof (IH _ (proj1 H2)) as H3. lia.
  - pose proof (IH _ H) as H2.
    pose proof (IH _ (proj1 H2)) as H3. lia.
  - now apply shr_1_bounds.
Qed.

Lemma shr_fexp_bounds m e l :
  0 <= m ->
  0 <= shr_m (fst (shr_fexp Float64.prec Float64.emax m e l)) <= m.
Proof.
  intros Hm. unfold shr_fexp, shr.
  destruct (fexp Float64.prec Float64.emax (Zdigits2 m + e) - e) as [|p|p];
    cbn [fst]; rewrite ?shr_record_of_loc_m; try lia.
  pose proof (iter_shr_1_bounds p (shr_record_of_loc m l)) as H.
  rewrite shr_record_of_loc_m in H. auto.
Qed.

Lemma round_nearest_even_bounds m l :
  0 <= m -> m <= round_nearest_even m l <= m + 1.
Proof.
  intros Hm. unfold round_nearest_even.
  destruct l as [|[]]; try lia. destruct (Z.even m); lia.
Qed.

Lemma binary_round_aux_not_nan s m e l :
  0 <= m ->
  Float64.is_nan (binary_round_aux Float64.prec Float64.emax s m e l) = false.
Proof.
  intros Hm. unfold binary_round_aux.
  pose proof (shr_fexp_bounds m e l Hm) as H1.
  destruct (shr_fexp Float64.prec Float64.emax m e l) as [mrs' e'].
  cbn [fst] in H1.
  pose proof (round_nearest_even_bounds (shr_m mrs') (loc_of_shr_record mrs')
                (proj1 H1)) as H2.
  set (m1 := round_nearest_even (shr_m mrs') (loc_of_shr_record mrs')) in *.
  pose proof (shr_fexp_bounds m1 e' loc_Exact ltac:(lia)) as H3.
  destruct (shr_fexp Float64.prec Float64.emax m1 e' loc_Exact) as [mrs'' e''].
  cbn [fst] in H3.
  destruct (shr_m mrs''); try lia; [reflexivity|].
  destruct (e'' <=? Float64.emax - Float64.prec); reflexivity.
Qed.

Lemma of_int_not_nan z : Float64.is_nan (Float64.of_int z) = false.
Proof.
  unfold Float64.of_int, binary_normalize.
  destruct z as [|p|p]; [reflexivity| |]; unfold binary_round;
    destruct (shl_align _ _ _) as [mz ez];
    apply binary_round_aux_not_nan; lia.
Qed.

(** The exponent that [shr_fexp] returns is that of its argument or the
    one that leaves 53 digits. *)
Lemma shr_fexp_exponent m e l :
  0 < m <= 2 ^ 65 -> -1074 <= e ->
  snd (shr_fexp Float64.prec Float64.emax m e l) <= Z.max e (e + 13).
Proof.
  intros Hm He. destruct m as [|q|q]; try lia.
  unfold shr_fexp, shr. cbn [Zdigits2].
  pose proof (digits2_pos_lower q) as Hd.
  set (d := Zpos (digits2_pos q)) in *.
  assert (Hd66 : d <= 66).
  { destruct (Z.le_gt_cases d 66) as [|Hgt]; [assumption|exfalso].
    assert (2 ^ 66 <= 2 ^ (d - 1)) by (apply Z.pow_le_mono_r; lia).
    assert (2 ^ 65 < 2 ^ 66) by (apply Z.pow_lt_mono_r; lia). lia. }
  destruct (fexp Float64.prec Float64.emax (d + e) - e) as [|p|p] eqn:En;
    cbn [snd]; try lia.
  unfold fexp, emin, Float64.prec, Float64.emax in En. lia.
Qed.

Lemma binary_round_aux_finite s m e l :
  0 < m <= 2 ^ 64 -> -1074 <= e <= 0 ->
  exists m' e', binary_round_aux Float64.prec Float64.emax s m e l
                = S754_finite s m' e'.
Proof.
  intros Hm He. unfold binary_round_aux.
  assert (H64 : 2 ^ 64 + 1 <= 2 ^ 65) by (vm_compute; discriminate).
  pose proof (shr_fexp_positive m e l ltac:(lia) ltac:(lia)) as [P1 P2].
  pose proof (shr_fexp_bounds m e l ltac:(lia)) as B1.
  pose proof (shr_fexp_exponent m e l ltac:(lia) ltac:(lia)) as X1.
  destruct (shr_fexp Float64.prec Float64.emax m e l) as [mrs' e'].
  cbn [fst snd] in *.
  pose proof (round_nearest_even_bounds (shr_m mrs') (loc_of_shr_record mrs')
                ltac:(lia)) as R.
  set (m1 := round_nearest_even (shr_m mrs') (loc_of_shr_record mrs')) in *.
  pose proof (shr_fexp_positive m1 e' loc_Exact ltac:(lia) ltac:(lia))
    as [P3 _].
  pose proof (shr_fexp_exponent m1 e' loc_Exact ltac:(lia) ltac:(lia)) as X2.
  destruct (shr_fexp Float64.prec Float64.emax m1 e' loc_Exact) as [mrs'' e''].
  cbn [fst snd] in *.
  destruct (shr_m mrs'') as [|m2|m2]; try lia.
  destruct (Z.leb_spec e'' (Float64.emax - Float64.prec)) as [_|Hgt].
  - now exists m2, e''.
  - unfold Float64.emax, Float64.prec in Hgt. lia.
Qed.

Lemma digits2_pos_upper m : Zpos m < 2 ^ Zpos (digits2_pos m).
Proof.
  induction m as [m IH|m IH|]; cbn [digits2_pos]; [| |cbn; lia];
    rewrite Pos2Z.inj_succ, Z.pow_succ_r by lia; lia.
Qed.

Lemma iter_xO_value k : forall p,
  Zpos (Pos.iter xO p k) = Zpos p * 2 ^ Zpos k.
Proof.
  induction k as [|k IH] using Pos.peano_ind; intros p.
  - cbn [Pos.iter]. rewrite Z.pow_1_r. lia.
  - rewrite Pos.iter_succ, Pos2Z.inj_succ, Z.pow_succ_r by lia.
    rewrite (Pos2Z.inj_xO (Pos.iter xO p k)), IH. lia.
Qed.

(** An integer of at most 64 bits converts to a finite float64. *)
Lemma of_int_finite z :
  z <> 0 -> - 2 ^ 64 <= z <= 2 ^ 64 ->
  exists m e, Float64.of_int z = S754_finite (z <? 0) m e.
Proof.
  intros Hz Hr. unfold Float64.of_int, binary_normalize.
  assert (Hal : forall p, Zpos p <= 2 ^ 64 ->
            forall mz ez,
              shl_align p 0
                (fexp Float64.prec Float64.emax (Zpos (digits2_pos p) + 0))
              = (mz, ez) ->
              0 < Zpos mz <= 2 ^ 64 /\ -1074 <= ez <= 0).
  { intros p Hp mz ez E.
    pose proof (digits2_pos_upper p) as Hu.
    assert (Hd : 1 <= Zpos (digits2_pos p)) by lia.
    remember (Zpos (digits2_pos p)) as d eqn:Hdef. clear Hdef.
    assert (Hf : fexp Float64.prec Float64.emax (d + 0)
                 = Z.max (d - 53) (-1074)).
    { unfold fexp, emin, Float64.prec, Float64.emax. lia. }
    rewrite Hf in E. unfold shl_align in E.
    destruct (Z.max (d - 53) (-1074) - 0) as [|k|k] eqn:En;
      injection E as <- <-; try lia.
    rewrite iter_xO_value.
    split; [split; [apply Z.mul_pos_pos; [lia|apply Z.pow_pos_nonneg; lia]|]
           |lia].
    assert (Hk : Zpos k = 53 - d) by lia.
    rewrite Hk.
    assert (Zpos p * 2 ^ (53 - d) < 2 ^ d * 2 ^ (53 - d)).
    { apply Z.mul_lt_mono_pos_r; [apply Z.pow_pos_nonneg; lia|exact Hu]. }
    rewrite <- Z.pow_add_r in H by lia.
    replace (d + (53 - d)) with 53 in H by lia.
    assert (2 ^ 53 < 2 ^ 64) by (apply Z.pow_lt_mono_r; lia). lia. }
  destruct z as [|p|p]; [contradiction| |]; unfold binary_round;
    destruct (shl_align _ _ _) as [mz ez] eqn:E;
    destruct (Hal p ltac:(lia) mz ez E) as [Hm He];
    apply binary_round_aux_finite; assumption.
Qed.

Lemma binary_normalize_not_nan m e sz :
  Float64.is_nan (binary_normalize Float64.prec Float64.emax m e sz) = false.
Proof.
  unfold binary_normalize.
  destruct m as [|p|p]; [reflexivity| |]; unfold binary_round;
    destruct (shl_align _ _ _) as [mz ez];
    apply binary_round_aux_not_nan; lia.
Qed.

Lemma SFdiv_core_binary_nonneg m1 e1 m2 e2 :
  0 <= fst (fst (SFdiv_core_binary Float64.prec Float64.emax
                   (Zpos m1) e1 (Zpos m2) e2)).
Proof.
  unfold SFdiv_core_binary.
  set (s := e1 - e2 - _).
  set (m' := match s with
             | 0 => Zpos m1
             | Zpos _ => Z.shiftl (Zpos m1) s
             | Zneg _ => 0
             end).
  assert (Hm' : 0 <= m').
  { unfold m'. destruct s; try lia. apply Z.shiftl_nonneg. lia. }
  pose proof (Z_div_mod m' (Zpos m2) ltac:(lia)) as Hdm.
  destruct (Z.div_eucl m' (Zpos m2)) as [q r]. cbn [fst]. nia.
Qed.

Lemma div_finite_not_nan x sy my ey :
  Float64.is_nan x = false ->
  Float64.is_nan (Float64.div x (S754_finite sy my ey)) = false.
Proof.
  destruct x as [sx|sx| |sx mx ex]; cbn [Float64.is_nan]; intros Hx;
    try discriminate; try reflexivity.
  unfold Float64.div. cbn [SFdiv].
  pose proof (SFdiv_core_binary_nonneg mx ex my ey) as Hq.
  destruct (SFdiv_core_binary _ _ _ _ _ _) as [[mz ez] lz]. cbn [fst] in Hq.
  now apply binary_round_aux_not_nan.
Qed.

Lemma mul_finite_not_nan x sy my ey :
  Float64.is_nan x = false ->
  Float64.is_nan (Float64.mul x (S754_finite sy my ey)) = false.
Proof.
  destruct x as [sx|sx| |sx mx ex]; cbn [Float64.is_nan]; intros Hx;
    try discriminate; try reflexivity.
  unfold Float64.mul. cbn [SFmul]. apply binary_round_aux_not_nan. lia.
Qed.

Lemma rint_not_nan x :
  Float64.is_nan x = false -> Float64.is_nan (Float64.rint x) = false.
Proof.
  destruct x as [sx|sx| |sx mx ex]; cbn [Float64.is_nan Float64.rint];
    intros Hx; try discriminate; try reflexivity.
  destruct (0 <=? ex); [reflexivity|].
  destruct (_ =? 0); [reflexivity|apply binary_normalize_not_nan].
Qed.

Lemma round_not_nan x :
  Float64.is_nan x = false -> Float64.is_nan (Float64.round x 2) = false.
Proof.
  intros Hx. unfold Float64.round.
  assert (Hc : exists m e, Float64.of_int (10 ^ 2) = S754_finite false m e)
    by (vm_compute; eauto).
  destruct Hc as (m & e & ->).
  now apply div_finite_not_nan, rint_not_nan, mul_finite_not_nan.
Qed.

Lemma defective_percentage_of_not_nan d p :
  p <> 0 -> - 2 ^ 64 <= p <= 2 ^ 64 ->
  Float64.is_nan (defective_percentage_of d p) = false.
Proof.
  intros Hp Hr. unfold defective_percentage_of, ratio_percent.
  destruct (of_int_finite p Hp Hr) as (m & e & ->).
  assert (Hc : exists m e, Float64.of_int 100 = S754_finite false m e)
    by (vm_compute; eauto).
  destruct Hc as (m' & e' & ->).
  apply round_not_nan, mul_finite_not_nan, div_finite_not_nan, of_int_not_nan.
Qed.

Lemma defective_percentage_of_nan d p :
  - 2 ^ 64 <= p <= 2 ^ 64 ->
  Float64.is_nan (defective_percentage_of d p) = true <-> d = 0 /\ p = 0.
Proof.
  intros Hr. split.
  - intros Hnan. destruct (Z.eq_dec p 0) as [->|Hp].
    + destruct (Z.eq_dec d 0) as [->|Hd]; [now split|].
      rewrite (defective_percentage_of_nonzero_zero d Hd) in Hnan.
      discriminate.
    + rewrite (defective_percentage_of_not_nan d p Hp Hr) in Hnan.
      discriminate.
  - intros [-> ->]. reflexivity.
Qed.

Lemma in_range_64 z : Int64.in_range z -> - 2 ^ 64 <= z <= 2 ^ 64.
Proof. unfold Int64.in_range, Int64.min_int, Int64.max_int. lia. Qed.

(** X6: a percentage of the aggregate is NaN exactly on a date whose
    produced_chips sum and defective_chips sum are both 0; every other
    row has a number or an infinity. *)
Theorem process_data_nan_iff (data : list production_record)
    (row : Daily.row) :
  In row (process_data data) ->
  Float64.is_nan (Daily.defective_percentage row) = true
  <-> Daily.produced_chips row = 0 /\ Daily.defective_chips row = 0.
Proof.
  intros Hin.
  destruct (process_data_row data row Hin) as (_ & Ep & _ & Epct).
  rewrite Epct, defective_percentage_of_nan; [tauto|].
  apply in_range_64. rewrite Ep, group_sum_total. apply wrap_range.
Qed.

(** X7: a value of a breakdown is NaN exactly for a category whose
    produced_chips sum and defective_chips sum are both 0. *)
Theorem average_defect_rate_by_nan_iff
    (key : production_record -> string) (data : list production_record)
    (k : string) (x : Float64.t) :
  In (k, x) (average_defect_rate_by key data) ->
  Float64.is_nan x = true
  <-> group_sum key produced_chips k data = 0
      /\ group_sum key defective_chips k data = 0.
Proof.
  intros Hin. apply average_defect_rate_by_In in Hin. destruct Hin as [_ ->].
  rewrite defective_percentage_of_nan; [tauto|].
  apply in_range_64. rewrite group_sum_total. apply wrap_range.
Qed.

Lemma process_data_nan_iff_witness :
  In idle_row (process_data idle_day)
  /\ Float64.is_nan (Daily.defective_percentage idle_row) = true.
Proof.
  assert (Hin : In idle_row (process_data idle_day)) by (left; reflexivity).
  split; [exact Hin|].
  apply (process_data_nan_iff idle_day idle_row Hin). split; reflexivity.
Defined.

Lemma average_defect_rate_by_nan_iff_witness :
  In ("A"%string, Float64.nan) (average_defect_rate_by shift idle_shifts)
  /\ group_sum shift produced_chips "A" idle_shifts = 0.
Proof.
  assert (Hin : In ("A"%string, Float64.nan)
                   (average_defect_rate_by shift idle_shifts))
    by (left; vm_compute; reflexivity).
  split; [exact Hin|].
  exact (proj1 (proj1 (average_defect_rate_by_nan_iff shift idle_shifts
                         "A" Float64.nan Hin) eq_refl)).
Defined.

(** ** The scanner on dates without production *)

(** X8: on a date whose produced_chips sum is 0 the scanner prints a
    notice exactly when the defective_chips sum is positive, and the notice
    then shows the percentage as [inf]; a date with neither production nor
    defects is never reported. *)
Theorem zero_production_notice (data : list production_record)
    (row : Daily.row) :
  In row (process_data data) ->
  Daily.produced_chips row = 0 ->
  (0 < Daily.defective_chips row ->
   In (Print ("Внимание: Висок процент дефектни чипове на дата "
                ++ Daily.date row ++ ": inf%"))
      (analyze_defective_percentage (process_data data)))
  /\ (Daily.defective_chips row <= 0 ->
      ~ In row (filter exceeds_threshold (process_data data))).
Proof.
  intros Hin Hzero.
  destruct (process_data_percentage data row Hin) as [_ Hpct].
  destruct (Hpct Hzero) as [Hnan Hinf]. split.
  - intros Hpos.
    assert (E : Daily.defective_percentage row = S754_infinity false).
    { rewrite Hinf by lia.
      destruct (Z.ltb_spec (Daily.defective_chips row) 0); [lia|reflexivity]. }
    rewrite analyze_defective_percentage_filter. apply in_map_iff.
    exists row. split.
    + unfold notice. now rewrite E.
    + apply filter_In. split; [exact Hin|].
      unfold exceeds_threshold. now rewrite E.
  - intros Hneg Hflag. apply filter_In in Hflag. destruct Hflag as [_ Hflag].
    unfold exceeds_threshold in Hflag.
    destruct (Z.eq_dec (Daily.defective_chips row) 0) as [E0|Hne].
    + rewrite (Hnan E0) in Hflag. discriminate.
    + rewrite (Hinf Hne) in Hflag.
      destruct (Z.ltb_spec (Daily.defective_chips row) 0); [|lia].
      discriminate.
Qed.

Lemma zero_production_notice_witness :
  In faulty_row (process_data faulty_day)
  /\ Daily.produced_chips faulty_row = 0
  /\ In (Print "Внимание: Висок процент дефектни чипове на дата 2024-01-01: inf%")
        (analyze_defective_percentage (process_data faulty_day)).
Proof.
  assert (Hin : In faulty_row (process_data faulty_day))
    by (left; reflexivity).
  split; [exact Hin|]. split; [reflexivity|].
  destruct (zero_production_notice faulty_day faulty_row Hin eq_refl)
    as [Hflag _].
  apply Hflag. cbn. lia.
Defined.

(** ** The size of the aggregate *)

Lemma key_insert_length k ks :
  (1 <= List.length (key_insert k ks) <= S (List.length ks))%nat.
Proof.
  induction ks as [|k' ks IH]; cbn [key_insert List.length]; [lia|].
  destruct (String.compare k k'); cbn [List.length]; lia.
Qed.

Lemma groupby_index_length {R} (key : R -> string) data :
  (List.length (groupby_index key data) <= List.length data)%nat.
Proof.
  induction data as [|r data IH] using rev_ind; [cbn; lia|].
  rewrite groupby_index_snoc, length_app. cbn [List.length].
  pose proof (key_insert_length (key r) (groupby_index key data)). lia.
Qed.

(** X9: the aggregate has as many rows as the table has distinct dates,
    and so never more rows than the table has lines. *)
Theorem process_data_length (data : list production_record) :
  List.length (process_data data)
  = List.length (nodup string_dec (map date data))
  /\ (List.length (process_data data) <= List.length data)%nat.
Proof.
  rewrite process_data_rows, length_map. split.
  - apply Permutation_length, NoDup_Permutation.
    + apply ascending_NoDup, groupby_index_ascending.
    + apply NoDup_nodup.
    + intros d. rewrite groupby_index_In, nodup_In. tauto.
  - apply groupby_index_length.
Qed.

(** ** Tables with production on every line *)

Lemma group_total_positive {R} (key : R -> string) (val : R -> Z) k data :
  Forall (fun r => 0 < val r) data ->
  In k (map key data) -> 0 < group_total key val k data.
Proof.
  unfold group_total, group_rows.
  induction 1 as [|r data Hr Hall IH]; cbn [map filter In]; [contradiction|].
  intros Hin.
  assert (Hge : 0 <= Zsum (map val (filter (fun r => String.eqb (key r) k)
                                           data))).
  { clear -Hall. induction Hall as [|r data Hr _ IH]; cbn [filter map];
      [cbn; lia|].
    destruct (String.eqb (key r) k); cbn [map]; rewrite ?Zsum_cons; lia. }
  destruct (String.eqb_spec (key r) k) as [_|Hne]; cbn [map];
    rewrite ?Zsum_cons; [lia|].
  destruct Hin as [E|Hin]; [contradiction|auto].
Qed.

(** X10: when every line of the table reports a positive production and
    the total production fits in an [int64], every row of the aggregate
    has a positive produced_chips and a percentage that is not NaN: no
    division by zero takes place. *)
Theorem positive_production_no_nan (data : list production_record)
    (row : Daily.row) :
  Forall (fun r => 0 < produced_chips r) data ->
  column_total produced_chips data <= Int64.max_int ->
  In row (process_data data) ->
  0 < Daily.produced_chips row
  /\ Float64.is_nan (Daily.defective_percentage row) = false.
Proof.
  intros Hpos Hmax Hin.
  destruct (process_data_row data row Hin) as (Hdate & Ep & _ & Epct).
  assert (Hnonneg : Forall (fun r => 0 <= produced_chips r) data).
  { eapply Forall_impl; [|exact Hpos]. cbn. intros; lia. }
  assert (Hp : 0 < Daily.produced_chips row).
  { rewrite Ep, (group_sum_exact produced_chips _ data Hnonneg Hmax).
    now apply group_total_positive. }
  split; [exact Hp|].
  rewrite Epct. apply defective_percentage_of_not_nan; [lia|].
  apply in_range_64. rewrite Ep, group_sum_total. apply wrap_range.
Qed.

Lemma positive_production_no_nan_witness :
  Forall (fun r => 0 < produced_chips r) scenario
  /\ column_total produced_chips scenario <= Int64.max_int
  /\ In flagged_row (process_data scenario)
  /\ 0 < Daily.produced_chips flagged_row.
Proof.
  assert (Hpos : Forall (fun r => 0 < produced_chips r) scenario)
    by (repeat constructor; cbn; lia).
  assert (Hmax : column_total produced_chips scenario <= Int64.max_int)
    by (unfold Int64.max_int; cbn; lia).
  assert (Hin : In flagged_row (process_data scenario))
    by (left; reflexivity).
  repeat (split; [assumption|]).
  exact (proj1 (positive_production_no_nan scenario flagged_row
                  Hpos Hmax Hin)).
Defined.

(** ** The effects of a run *)

Lemma analyze_defective_percentage_prints grouped :
  Forall (fun e => is_print e = true) (analyze_defective_percentage grouped).
Proof.
  rewrite analyze_defective_percentage_filter. apply Forall_forall.
  intros e He. apply in_map_iff in He. now destruct He as (row & <- & _).
Qed.

Lemma filter_none {A} (f : A -> bool) l :
  Forall (fun x => f x = false) l -> filter f l = [].
Proof.
  induction 1 as [|x l Hx _ IH]; cbn [filter]; [reflexivity|].
  now rewrite Hx.
Qed.

(** X11: whatever a run writes or shows comes from a parsed table: an
    output file is written only when [read_csv] parsed the input, and it is
    then the aggregate of that table, under the name
    processed_semiconductor_production.csv; a chart is shown only then,
    and it is the line chart of that aggregate or the bar chart of one of
    the three breakdowns of that table. *)
Theorem main_files_and_charts
    (add_reduce : list Float64.t -> Float64.t) (read_csv : read_csv_outcome)
    (e : event) :
  In e (trace (main add_reduce read_csv)) ->
  (is_to_csv e = true ->
   exists data,
     read_csv = Parsed data
     /\ e = ToCsv "processed_semiconductor_production.csv"
                  (process_data data))
  /\ (is_chart e = true ->
      exists data,
        read_csv = Parsed data
        /\ (e = ShowLineChart (process_data data)
            \/ exists title,
                 e = ShowBarChart title (average_defect_rate_by wafer_size data)
                 \/ e = ShowBarChart title (average_defect_rate_by shift data)
                 \/ e = ShowBarChart title
                         (average_defect_rate_by machine_id data))).
Proof.
  destruct read_csv as [data| | | |];
    cbn [main read_data trace app visualize_data save_processed_data In].
  2-4: intros [<-|[]]; split; discriminate.
  2: intros [].
  pose proof (analyze_defective_percentage_prints (process_data data)) as Hp.
  rewrite Forall_forall in Hp.
  intros [<-|[<-|[<-|[<-|Hin]]]]; cbn [is_to_csv is_chart].
  - split; [discriminate|]. intros _. exists data. split; [reflexivity|].
    now left.
  - split; [|discriminate]. intros _. now exists data.
  - split; discriminate.
  - split; discriminate.
  - apply in_app_or in Hin. destruct Hin as [Hin|Hin].
    + specialize (Hp e Hin).
      destruct e; cbn in Hp |- *; try discriminate Hp; split; discriminate.
    + unfold additional_analysis in Hin. cbn [In] in Hin.
      destruct Hin as [<-|[<-|[<-|[<-|[<-|[<-|[]]]]]]];
        cbn [is_to_csv is_chart]; try (split; discriminate);
        (split; [discriminate|]); intros _; exists data;
        (split; [reflexivity|]); right; eexists.
      * left. reflexivity.
      * right. left. reflexivity.
      * right. right. reflexivity.
Qed.

Lemma main_files_and_charts_witness :
  In (ToCsv "processed_semiconductor_production.csv" (process_data scenario))
     (trace (main sequential_sum (Parsed scenario)))
  /\ exists data, Parsed scenario = Parsed data.
Proof.
  assert (Hin : In (ToCsv "processed_semiconductor_production.csv"
                          (process_data scenario))
                   (trace (main sequential_sum (Parsed scenario))))
    by (right; left; reflexivity).
  split; [exact Hin|].
  destruct (proj1 (main_files_and_charts sequential_sum (Parsed scenario)
                     _ Hin) eq_refl) as (data & Hd & _).
  exists data. exact Hd.
Defined.

(** ** The messages of the loader *)

Lemma not_found_is_not_empty path :
  ("Error: File " ++ path ++ " not found.")%string <> "Error: File is empty."%string.
Proof.
  cbn [append]. intros H. do 12 apply string_tail_eq in H.
  repeat (destruct path as [|? path]; cbn [append] in H;
          [discriminate H|]; first [discriminate H|apply string_tail_eq in H]).
Qed.

Lemma not_found_is_not_parse path :
  ("Error: File " ++ path ++ " not found.")%string
  <> "Error: File could not be parsed."%string.
Proof.
  cbn [append]. intros H. do 12 apply string_tail_eq in H.
  repeat (destruct path as [|? path]; cbn [append] in H;
          [discriminate H|]; first [discriminate H|apply string_tail_eq in H]).
Qed.

(** X12: the message that [read_data] prints tells the three failures
    apart, whatever the path: two different reported failures never print
    the same message. *)
Theorem read_data_report_identifies_failure
    (file_path : string) (o1 o2 : read_csv_outcome) :
  loader_failure o1 = true -> loader_failure o2 = true ->
  o1 <> o2 ->
  failure_report file_path o1 <> failure_report file_path o2.
Proof.
  pose proof (not_found_is_not_empty file_path) as H1.
  pose proof (not_found_is_not_parse file_path) as H2.
  assert (Hs : forall a b, [Print a] = [Print b] -> a = b)
    by (intros a b Hab; now injection Hab).
  destruct o1, o2; cbn [loader_failure]; try discriminate; intros _ _ Hne;
    try (exfalso; now apply Hne);
    unfold failure_report; cbn [read_data fst]; intros E; apply Hs in E;
    first [exact (H1 E)|exact (H2 E)|exact (H1 (eq_sym E))
          |exact (H2 (eq_sym E))|discriminate E].
Qed.

Lemma read_data_report_identifies_failure_witness :
  loader_failure FileNotFoundError = true
  /\ loader_failure ParserError = true
  /\ FileNotFoundError <> ParserError
  /\ failure_report "could not be parsed" FileNotFoundError
     <> failure_report "could not be parsed" ParserError.
Proof.
  assert (Hne : FileNotFoundError <> ParserError) by discriminate.
  repeat (split; [first [reflexivity|exact Hne]|]).
  exact (read_data_report_identifies_failure "could not be parsed"
           FileNotFoundError ParserError eq_refl eq_refl Hne).
Defined.
